(** * Shooting-range targets: pooled lifecycle and waypoint movement

    A shallow embedding of [src/index.ts] (module [TargetObject]): the
    target pool ([Create], [Enable], [Disable], [DisableAll], [Destroy],
    [DestroyAll]) and the per-tick system [targetProcessingMoving].

    Numbers.  A JavaScript [number] is an IEEE 754 binary64 value; it is
    modelled by Rocq's primitive [float], whose operations are the same
    binary64 operations with round-to-nearest-even.  The one exception is
    [indexCur], which the code only ever uses as an array index and only
    ever sets to [0] or increments by one: it is modelled by [Z], and an
    index outside the array is the [undefined] whose field access throws.

    Exceptions.  The engine's [get]/[getMutable]/[create] throw, and so
    does reading a field of [undefined].  Code runs in a state-and-
    exception monad that keeps the state reached when the exception was
    raised, as JavaScript keeps the mutations made before a [throw]. *)

From Stdlib Require Import ZArith List Bool Lia String.
From Stdlib Require Import Floats.
From stdpp Require Import base option list gmap fin_maps.
From Equations Require Import Equations.
From Equations.Prop Require Import Logic.

#[local] Set Warnings "-inexact-float,-clear-no-such-hyp".

Local Open Scope Z_scope.

(* ===================================================================== *)
(** ** Data model *)
(* ===================================================================== *)

(** [Entity] is the engine's opaque handle (a number). *)
Abbreviation Entity := N.

(** [Schemas.Vector3], also the shape of [TargetDataObject.pos]. *)
Record Vector3 := mkVector3 { x : float; y : float; z : float }.

(** [enum TARGET_TYPE { STATIC = 0, MOVING = 1 }] *)
Inductive TARGET_TYPE := STATIC | MOVING.

Global Instance TARGET_TYPE_eq_dec : EqDecision TARGET_TYPE.
Proof. solve_decision. Defined.

(** [interface TargetDataObject] *)
Record TargetDataObject := mkTargetData { type : TARGET_TYPE; pos : Vector3 }.

(** [TargetStaticComponentData] *)
Module Static.
Record Data := mk { isActive : bool }.
End Static.

(** [TargetMovingComponentData] *)
Module Moving.
Record Data := mk {
  isActive : bool;
  isProcessing : bool;
  speed : float;
  indexCur : Z;
  waypoints : list Vector3;
  normal : Vector3
}.
End Moving.

(** The part of the engine's [Transform] component that the module reads
    and writes. *)
Record TransformData := mkTransform { position : Vector3; scale : Vector3 }.

(** The engine's [GltfContainer] component as [Create] fills it. *)
Record GltfData := mkGltf {
  src : string;
  visibleMeshesCollisionMask : option N;
  invisibleMeshesCollisionMask : option N
}.

Definition MODEL_TARGET_OBJECT : string :=
  "models/shooting-range/shooting-target.glb".

(** [ColliderLayer.CL_POINTER] of the engine. *)
Definition CL_POINTER : N := 1%N.

(** The whole state the module acts on: the engine's entity counter and
    component stores, and the module-level [pooledObjects], one bucket
    per [TARGET_TYPE] (the array [[],[]] is never resized, only its two
    inner arrays are). *)
Record World := mkWorld {
  nextEntity : Entity;
  Transform : gmap Entity TransformData;
  GltfContainer : gmap Entity GltfData;
  TargetStaticComponent : gmap Entity Static.Data;
  TargetMovingComponent : gmap Entity Moving.Data;
  pooledStatic : list Entity;
  pooledMoving : list Entity
}.

(** [pooledObjects[type]] *)
Definition pooledObjects (ty : TARGET_TYPE) (w : World) : list Entity :=
  match ty with
  | STATIC => pooledStatic w
  | MOVING => pooledMoving w
  end.

(** The scene before [main] runs: no entity, both buckets empty.  The
    engine keeps the handles below 512 for itself. *)
Definition world0 : World :=
  mkWorld 512%N ∅ ∅ ∅ ∅ [] [].

(* ===================================================================== *)
(** ** State and exceptions *)
(* ===================================================================== *)

Inductive Res (A : Type) : Type :=
| Ok (a : A) (w : World)
| Thrown (w : World).
Arguments Ok {A} a w.
Arguments Thrown {A} w.

Definition M (A : Type) : Type := World -> Res A.

Definition ret {A} (a : A) : M A := fun w => Ok a w.
Definition throw {A} : M A := fun w => Thrown w.
Definition bind {A B} (m : M A) (k : A -> M B) : M B :=
  fun w => match m w with
           | Ok a w' => k a w'
           | Thrown w' => Thrown w'
           end.

Notation "'do' v <- m ;; k" := (bind m (fun v => k))
  (at level 10, v name, m at level 99, k at level 200).
Notation "m ;;; k" := (bind m (fun _ => k))
  (at level 100, k at level 200, right associativity).

(** The state a computation leaves, whether it returned or threw. *)
Definition state_of {A} (r : Res A) : World :=
  match r with Ok _ w => w | Thrown w => w end.

Definition returned {A} (r : Res A) : bool :=
  match r with Ok _ _ => true | Thrown _ => false end.

(** [for (const v of l) body(v)] *)
Fixpoint for_each {A} (body : A -> M unit) (l : list A) : M unit :=
  match l with
  | [] => ret tt
  | v :: l' => body v ;;; for_each body l'
  end.

(* ===================================================================== *)
(** ** The engine, as far as the module uses it

    [engine.addEntity] hands out a handle that was never handed out
    before; a component store maps the entities carrying the component to
    its value; [create] throws when the entity already carries the
    component, [get] and [getMutable] throw when it does not;
    [engine.removeEntity] deletes the entity's components. *)
(* ===================================================================== *)

Definition set_nextEntity (n : Entity) (w : World) : World :=
  mkWorld n (Transform w) (GltfContainer w) (TargetStaticComponent w)
    (TargetMovingComponent w) (pooledStatic w) (pooledMoving w).
Definition set_Transform (m : gmap Entity TransformData) (w : World) : World :=
  mkWorld (nextEntity w) m (GltfContainer w) (TargetStaticComponent w)
    (TargetMovingComponent w) (pooledStatic w) (pooledMoving w).
Definition set_GltfContainer (m : gmap Entity GltfData) (w : World) : World :=
  mkWorld (nextEntity w) (Transform w) m (TargetStaticComponent w)
    (TargetMovingComponent w) (pooledStatic w) (pooledMoving w).
Definition set_TargetStaticComponent (m : gmap Entity Static.Data) (w : World) : World :=
  mkWorld (nextEntity w) (Transform w) (GltfContainer w) m
    (TargetMovingComponent w) (pooledStatic w) (pooledMoving w).
Definition set_TargetMovingComponent (m : gmap Entity Moving.Data) (w : World) : World :=
  mkWorld (nextEntity w) (Transform w) (GltfContainer w) (TargetStaticComponent w)
    m (pooledStatic w) (pooledMoving w).
Definition set_pooledObjects (ty : TARGET_TYPE) (l : list Entity) (w : World) : World :=
  match ty with
  | STATIC =>
      mkWorld (nextEntity w) (Transform w) (GltfContainer w) (TargetStaticComponent w)
        (TargetMovingComponent w) l (pooledMoving w)
  | MOVING =>
      mkWorld (nextEntity w) (Transform w) (GltfContainer w) (TargetStaticComponent w)
        (TargetMovingComponent w) (pooledStatic w) l
  end.

(** A component definition: where its store lives in the world. *)
Record Component (V : Type) := mkComponent {
  store : World -> gmap Entity V;
  set_store : gmap Entity V -> World -> World
}.
Arguments store {V} _ _.
Arguments set_store {V} _ _ _.

Definition cTransform : Component TransformData :=
  mkComponent _ Transform set_Transform.
Definition cGltfContainer : Component GltfData :=
  mkComponent _ GltfContainer set_GltfContainer.
Definition cTargetStatic : Component Static.Data :=
  mkComponent _ TargetStaticComponent set_TargetStaticComponent.
Definition cTargetMoving : Component Moving.Data :=
  mkComponent _ TargetMovingComponent set_TargetMovingComponent.

(** [C.create(entity, v)] *)
Definition create {V} (C : Component V) (entity : Entity) (v : V) : M unit :=
  fun w => match store C w !! entity with
           | Some _ => Thrown w
           | None => Ok tt (set_store C (<[entity := v]> (store C w)) w)
           end.

(** [C.get(entity)] and the read of [C.getMutable(entity)] *)
Definition get {V} (C : Component V) (entity : Entity) : M V :=
  fun w => match store C w !! entity with
           | Some v => Ok v w
           | None => Thrown w
           end.

(** [C.getMutable(entity).field = ...]: an assignment through the mutable
    reference, [f] being the field update. *)
Definition mutate {V} (C : Component V) (entity : Entity) (f : V -> V) : M unit :=
  fun w => match store C w !! entity with
           | Some v => Ok tt (set_store C (<[entity := f v]> (store C w)) w)
           | None => Thrown w
           end.

(** [engine.addEntity()] *)
Definition addEntity : M Entity :=
  fun w => Ok (nextEntity w) (set_nextEntity (N.succ (nextEntity w)) w).

(** [engine.removeEntity(entity)] *)
Definition removeEntity (entity : Entity) (w : World) : World :=
  mkWorld (nextEntity w)
    (delete entity (Transform w)) (delete entity (GltfContainer w))
    (delete entity (TargetStaticComponent w))
    (delete entity (TargetMovingComponent w))
    (pooledStatic w) (pooledMoving w).

(** [engine.getEntitiesWith(C)]: the entities that carry [C].  The engine
    fixes no order that the module relies on; the order of the store's
    listing is taken. *)
Definition getEntitiesWith {V} (C : Component V) (w : World) : list Entity :=
  (map_to_list (store C w)).*1.

(** [a[i]] for an integer-valued [i]: [None] is JavaScript's [undefined]. *)
Definition array_get {A} (a : list A) (i : Z) : option A :=
  if i <? 0 then None else a !! Z.to_nat i.

(** The value of [a[i]] where the code goes on to read a field of it:
    reading a field of [undefined] throws. *)
Definition field_of {A} (o : option A) : M A :=
  match o with
  | Some v => ret v
  | None => throw
  end.

(* ===================================================================== *)
(** ** The module [TargetObject] *)
(* ===================================================================== *)

(** The numeric value of an enum member, as [DisableAll] passes it. *)
Definition TARGET_TYPE_value (ty : TARGET_TYPE) : Z :=
  match ty with STATIC => 0 | MOVING => 1 end.

Definition set_isActive (b : bool) (c : Moving.Data) : Moving.Data :=
  Moving.mk b (Moving.isProcessing c) (Moving.speed c) (Moving.indexCur c)
    (Moving.waypoints c) (Moving.normal c).
Definition set_isProcessing (b : bool) (c : Moving.Data) : Moving.Data :=
  Moving.mk (Moving.isActive c) b (Moving.speed c) (Moving.indexCur c)
    (Moving.waypoints c) (Moving.normal c).
Definition set_indexCur (i : Z) (c : Moving.Data) : Moving.Data :=
  Moving.mk (Moving.isActive c) (Moving.isProcessing c) (Moving.speed c) i
    (Moving.waypoints c) (Moving.normal c).
Definition set_normal (n : Vector3) (c : Moving.Data) : Moving.Data :=
  Moving.mk (Moving.isActive c) (Moving.isProcessing c) (Moving.speed c)
    (Moving.indexCur c) (Moving.waypoints c) n.
Definition set_position (p : Vector3) (t : TransformData) : TransformData :=
  mkTransform p (scale t).
Definition set_scale (s : Vector3) (t : TransformData) : TransformData :=
  mkTransform (position t) s.

(** The arrival test of [MovingTimer] (lines 124-128). *)
Definition arrived (pos wp : Vector3) : bool :=
  (abs (x pos - x wp) <? 0.05)%float &&
  (abs (y pos - y wp) <? 0.05)%float &&
  (abs (z pos - z wp) <? 0.02)%float.

(** [indexCur++; if (indexCur >= waypoints.length) indexCur = 0] *)
Definition next_index (i : Z) (len : nat) : Z :=
  if i + 1 >=? Z.of_nat len then 0 else i + 1.

(** The direction from [pos] to [wp], divided by its length
    (lines 133-144). *)
Definition unit_towards (pos wp : Vector3) : Vector3 :=
  let direction := mkVector3 (x wp - x pos) (y wp - y pos) (z wp - z pos) in
  let length := sqrt (x direction * x direction + y direction * y direction
                      + z direction * z direction)%float in
  mkVector3 (x direction / length) (y direction / length) (z direction / length).

(** [pos.x += dt*speed*normal.x], and the same for [y] and [z]. *)
Definition advance (dt speed : float) (normal pos : Vector3) : Vector3 :=
  mkVector3 (x pos + dt * speed * x normal)
            (y pos + dt * speed * y normal)
            (z pos + dt * speed * z normal).

(** The body of the loop of [MovingTimer] for one entity. *)
Definition MovingTimer_body (dt : float) (entity : Entity) : M unit :=
  do component <- get cTargetMoving entity ;;
  if negb (Moving.isActive component) || negb (Moving.isProcessing component)
  then ret tt
  else
    do tr <- get cTransform entity ;;
    let pos := position tr in
    do wp <- field_of (array_get (Moving.waypoints component)
                                 (Moving.indexCur component)) ;;
    do normal <-
      (if arrived pos wp then
         let i := next_index (Moving.indexCur component)
                    (length (Moving.waypoints component)) in
         mutate cTargetMoving entity (set_indexCur i) ;;;
         do wp' <- field_of (array_get (Moving.waypoints component) i) ;;
         mutate cTargetMoving entity (set_normal (unit_towards pos wp')) ;;;
         ret (unit_towards pos wp')
       else ret (Moving.normal component)) ;;
    mutate cTransform entity
      (fun t => set_position (advance dt (Moving.speed component) normal (position t)) t).

(** [targetProcessingMoving], the system run once per tick. *)
Definition targetProcessingMoving (dt : float) : M unit :=
  fun w => for_each (MovingTimer_body dt) (getEntitiesWith cTargetMoving w) w.

(** [Enable] *)
Definition Enable (entity : Entity) (targetData : TargetDataObject) : M Entity :=
  match type targetData with
  | STATIC => mutate cTargetStatic entity (fun _ => Static.mk true)
  | MOVING => mutate cTargetMoving entity (set_isActive true)
  end ;;;
  mutate cTransform entity
    (set_position (mkVector3 (x (pos targetData)) (y (pos targetData))
                             (z (pos targetData)))) ;;;
  mutate cTransform entity (set_scale (mkVector3 1 1 1)) ;;;
  ret entity.

(** [isActive] of the component that a bucket's kind carries. *)
Definition get_isActive (ty : TARGET_TYPE) (entity : Entity) : M bool :=
  match ty with
  | STATIC => do c <- get cTargetStatic entity ;; ret (Static.isActive c)
  | MOVING => do c <- get cTargetMoving entity ;; ret (Moving.isActive c)
  end.

(** The reuse loop of [Create] (lines 161-175) over the entries of the
    bucket that are still to be visited: [Some e] is the early
    [return reused], [None] the end of the loop.  [Enable] returns an
    entity, never [undefined], so the first inactive entry ends the
    loop. *)
Fixpoint Create_scan (targetData : TargetDataObject) (bucket : list Entity)
  : M (option Entity) :=
  match bucket with
  | [] => ret None
  | entity :: rest =>
      do active <- get_isActive (type targetData) entity ;;
      if negb active
      then do reused <- Enable entity targetData ;; ret (Some reused)
      else Create_scan targetData rest
  end.

(** [pooledObjects[type].push(entity)] *)
Definition push (ty : TARGET_TYPE) (entity : Entity) : M unit :=
  fun w => Ok tt (set_pooledObjects ty (pooledObjects ty w ++ [entity]) w).

(** [Create].  The engine's [create] fills the fields that the caller
    leaves out with the defaults of their schema: scale [(1,1,1)] for a
    transform; [0] for a number, the empty array and the zero vector for
    [speed], [indexCur], [waypoints] and [normal]. *)
Definition Create (targetData : TargetDataObject) : M Entity :=
  do found <- (fun w => Create_scan targetData
                          (pooledObjects (type targetData) w) w) ;;
  match found with
  | Some reused => ret reused
  | None =>
      do entity <- addEntity ;;
      create cTransform entity
        (mkTransform (mkVector3 (x (pos targetData)) (y (pos targetData))
                                (z (pos targetData)))
                     (mkVector3 1 1 1)) ;;;
      create cGltfContainer entity
        (mkGltf MODEL_TARGET_OBJECT (Some CL_POINTER) None) ;;;
      match type targetData with
      | STATIC => create cTargetStatic entity (Static.mk true)
      | MOVING =>
          create cTargetMoving entity
            (Moving.mk true false 0%float 0 [] (mkVector3 0 0 0))
      end ;;;
      push (type targetData) entity ;;;
      ret entity
  end.

(** [Disable]; [type] is a [number] in the source. *)
Definition Disable (entity : Entity) (type : Z) : M unit :=
  (if type =? 0 then mutate cTargetStatic entity (fun _ => Static.mk false)
   else if type =? 1 then
     mutate cTargetMoving entity (set_isActive false) ;;;
     mutate cTargetMoving entity (set_isProcessing false)
   else ret tt) ;;;
  mutate cTransform entity (set_scale (mkVector3 0 0 0)).

(** [DisableAll]: the outer loop runs over the two buckets, [i = 0, 1]. *)
Definition DisableAll : M unit :=
  (fun w => for_each (fun e => Disable e 0) (pooledObjects STATIC w) w) ;;;
  (fun w => for_each (fun e => Disable e 1) (pooledObjects MOVING w) w).

(** [Destroy] *)
Definition Destroy (entity : Entity) : M unit :=
  fun w => Ok tt (removeEntity entity w).

(** [pooledObjects[i].pop()]: removes the last entry and returns it,
    [None] being the [undefined] of an empty array. *)
Definition pop (ty : TARGET_TYPE) : M (option Entity) :=
  fun w => Ok (last (pooledObjects ty w))
              (set_pooledObjects ty (removelast (pooledObjects ty w)) w).

(** One round of the [while] loop of [DestroyAll]. *)
Definition DestroyAll_round (ty : TARGET_TYPE) : M unit :=
  do obj <- pop ty ;;
  match obj with
  | Some o => Destroy o
  | None => ret tt
  end.

(** [while (0 < pooledObjects[i].length) { ... }]: every round pops one
    entry, so the loop ends. *)
Equations? DestroyAll_loop (ty : TARGET_TYPE) (w : World) : World
  by wf (length (pooledObjects ty w)) lt :=
  DestroyAll_loop ty w with inspect (0 <? Z.of_nat (length (pooledObjects ty w))) := {
    | exist _ true _ => DestroyAll_loop ty (state_of (DestroyAll_round ty w))
    | exist _ false _ => w }.
Proof.
  apply Z.ltb_lt in e.
  unfold DestroyAll_round, bind, pop.
  assert (Hl : (length (removelast (pooledObjects ty w))
                < length (pooledObjects ty w))%nat).
  { revert e. generalize (pooledObjects ty w) as l. intros l Hpos.
    destruct (decide (l = [])) as [->|Hne]; [simpl in Hpos; lia|].
    destruct (exists_last Hne) as (l' & a & ->).
    rewrite removelast_last, length_app. simpl. lia. }
  destruct (last (pooledObjects ty w)); destruct ty; simpl; exact Hl.
Qed.

(** [DestroyAll] *)
Definition DestroyAll : M unit :=
  fun w => Ok tt (DestroyAll_loop MOVING (DestroyAll_loop STATIC w)).

(** A run of ticks: each call of the system starts from the state the
    previous call left, whether that call returned or threw. *)
Definition run_ticks (dts : list float) (w : World) : World :=
  foldl (fun w dt => state_of (targetProcessingMoving dt w)) w dts.

(** The post-creation customisation of [main] (lines 43-47): the caller
    sets [speed], [waypoints] and [isProcessing] through [getMutable]. *)
Definition set_speed (s : float) (c : Moving.Data) : Moving.Data :=
  Moving.mk (Moving.isActive c) (Moving.isProcessing c) s (Moving.indexCur c)
    (Moving.waypoints c) (Moving.normal c).
Definition set_waypoints (l : list Vector3) (c : Moving.Data) : Moving.Data :=
  Moving.mk (Moving.isActive c) (Moving.isProcessing c) (Moving.speed c)
    (Moving.indexCur c) l (Moving.normal c).
Definition configure (entity : Entity) (s : float) (l : list Vector3)
    (processing : bool) : M unit :=
  mutate cTargetMoving entity (set_speed s) ;;;
  mutate cTargetMoving entity (set_waypoints l) ;;;
  mutate cTargetMoving entity (set_isProcessing processing).

(* ===================================================================== *)
(** ** Vocabulary of the statements *)
(* ===================================================================== *)

(** [isActive] of the state record of kind [ty] attached to [e], if any. *)
Definition active_of (ty : TARGET_TYPE) (w : World) (e : Entity) : option bool :=
  match ty with
  | STATIC => Static.isActive <$> TargetStaticComponent w !! e
  | MOVING => Moving.isActive <$> TargetMovingComponent w !! e
  end.

(** The test of the reuse loop: the record is there and [isActive] is
    false. *)
Definition is_inactive (ty : TARGET_TYPE) (w : World) (e : Entity) : bool :=
  match active_of ty w e with
  | Some false => true
  | _ => false
  end.

(** Some entry of the bucket of kind [ty] is inactive. *)
Definition has_inactive (ty : TARGET_TYPE) (w : World) : bool :=
  existsb (is_inactive ty w) (pooledObjects ty w).

(** The pool invariant: every pooled handle carries the state record of
    its bucket's kind and a transform, and the engine has handed out no
    handle from [nextEntity] on. *)
Definition pool_wf (w : World) : Prop :=
  (forall e, e ∈ pooledStatic w ->
     e ∈ dom (TargetStaticComponent w) /\ e ∈ dom (Transform w)) /\
  (forall e, e ∈ pooledMoving w ->
     e ∈ dom (TargetMovingComponent w) /\ e ∈ dom (Transform w)) /\
  (forall e, e ∈ dom (Transform w) ∪ dom (GltfContainer w)
               ∪ dom (TargetStaticComponent w) ∪ dom (TargetMovingComponent w) ->
     (e < nextEntity w)%N).

(** What the invariant depends on. *)
Definition shape (w : World) :=
  (nextEntity w, dom (Transform w), dom (GltfContainer w),
   dom (TargetStaticComponent w), dom (TargetMovingComponent w),
   pooledStatic w, pooledMoving w).

(** The strict comparison of two numbers, as a proposition. *)
Definition flt (a b : float) : Prop := (a <? b)%float = true.

(** The arrival test in the words of the specification. *)
Definition arrival_spec (p wp : Vector3) : Prop :=
  flt (abs (x p - x wp)) 0.05 /\ flt (abs (y p - y wp)) 0.05 /\
  flt (abs (z p - z wp)) 0.02.

(** What [MovingTimer] does to the component on arrival (lines 129-144):
    the index steps on cyclically and the direction is recomputed. *)
Definition on_arrival (c : Moving.Data) (pos : Vector3) : Moving.Data :=
  let i := next_index (Moving.indexCur c) (length (Moving.waypoints c)) in
  match array_get (Moving.waypoints c) i with
  | Some wp' => set_normal (unit_towards pos wp') (set_indexCur i c)
  | None => set_indexCur i c
  end.

(** An entity the loop body does not skip. *)
Definition moving_now (c : Moving.Data) : bool :=
  Moving.isActive c && Moving.isProcessing c.

(** The loop body does not throw on [e]: a skipped entity, or one with a
    transform and a current waypoint. *)
Definition ready (w : World) (e : Entity) : Prop :=
  match TargetMovingComponent w !! e with
  | Some c =>
      moving_now c = true ->
      is_Some (Transform w !! e) /\
      is_Some (array_get (Moving.waypoints c) (Moving.indexCur c))
  | None => False
  end.

(** No loop body of a tick throws. *)
Definition tick_ready (w : World) : Prop :=
  forall e, e ∈ dom (TargetMovingComponent w) -> ready w e.

(** Two numbers with the same numeric value: equal, or both a zero. *)
Definition same_num (a b : float) : Prop :=
  a = b \/ (exists s s', Prim2SF a = S754_zero s /\ Prim2SF b = S754_zero s').

(** Two positions with the same numeric coordinates. *)
Definition same_place (p q : Vector3) : Prop :=
  same_num (x p) (x q) /\ same_num (y p) (y q) /\ same_num (z p) (z q).

(** An entity none of whose components is left in the engine. *)
Definition gone (w : World) (e : Entity) : Prop :=
  Transform w !! e = None /\ GltfContainer w !! e = None /\
  TargetStaticComponent w !! e = None /\ TargetMovingComponent w !! e = None.

(** A moving target that is switched off and halted. *)
Definition halted (w : World) (e : Entity) : Prop :=
  exists c, TargetMovingComponent w !! e = Some c /\
            Moving.isActive c = false /\ Moving.isProcessing c = false.

(** What the system reads and writes of an entity. *)
Definition view (w : World) (e : Entity)
  : option Moving.Data * option TransformData :=
  (TargetMovingComponent w !! e, Transform w !! e).

(** The loop body as a function of the entity's view. *)
Definition step_view (dt : float)
    (v : option Moving.Data * option TransformData)
  : option Moving.Data * option TransformData :=
  match v with
  | (Some c, Some t) =>
      if moving_now c then
        match array_get (Moving.waypoints c) (Moving.indexCur c) with
        | Some wp =>
            if arrived (position t) wp then
              match array_get (Moving.waypoints c)
                      (next_index (Moving.indexCur c)
                                  (length (Moving.waypoints c))) with
              | Some wp' =>
                  (Some (on_arrival c (position t)),
                   Some (set_position
                           (advance dt (Moving.speed c)
                              (unit_towards (position t) wp') (position t)) t))
              | None => (Some (on_arrival c (position t)), Some t)
              end
            else
              (Some c,
               Some (set_position
                       (advance dt (Moving.speed c) (Moving.normal c)
                          (position t)) t))
        | None => v
        end
      else v
  | _ => v
  end.

(** A checkable form of [tick_ready]. *)
Definition readyb (w : World) (e : Entity) : bool :=
  match TargetMovingComponent w !! e with
  | Some c =>
      if moving_now c then
        bool_decide (is_Some (Transform w !! e)) &&
        bool_decide (is_Some (array_get (Moving.waypoints c) (Moving.indexCur c)))
      else true
  | None => false
  end.

Definition tick_readyb (w : World) : bool :=
  forallb (readyb w) (getEntitiesWith cTargetMoving w).

(* ===================================================================== *)
(** ** Sample scenes *)
(* ===================================================================== *)

(** A pool with two static targets, both disabled. *)
Definition world_two_idle : World :=
  state_of (DisableAll
    (state_of (Create (mkTargetData STATIC (mkVector3 18.5 1 22))
      (state_of (Create (mkTargetData STATIC (mkVector3 13.5 1 18)) world0))))).

(** A pool with one active static target and one active moving target. *)
Definition world_two_kinds : World :=
  state_of (Create (mkTargetData MOVING (mkVector3 11 1 20))
    (state_of (Create (mkTargetData STATIC (mkVector3 13.5 1 18)) world0))).

(** The first waypoints of the demo scene. *)
Definition wpA : Vector3 := mkVector3 11 1 16.
Definition wpB : Vector3 := mkVector3 21 1 16.

(** One moving target created at [p], given the demo's speed and
    waypoints, set processing and aimed at waypoint [i]. *)
Definition world_one_moving (p : Vector3) (i : Z) : World :=
  state_of
    ((do e <- Create (mkTargetData MOVING p) ;;
      configure e 1.2 [wpA; wpB] true ;;;
      mutate cTargetMoving e (set_indexCur i)) world0).

(** One moving target of the demo, created and configured but not set
    processing, next to an active one. *)
Definition world_idle_and_moving : World :=
  state_of
    ((do e <- Create (mkTargetData MOVING (mkVector3 21 1 24)) ;;
      configure e 2.4 [mkVector3 21 1 20; mkVector3 11 1 20] false)
       (world_one_moving wpA 0)).

(** A moving target with speed [2] heading along [x], away from its
    waypoint. *)
Definition world_heading_x : World :=
  state_of
    ((do e <- Create (mkTargetData MOVING (mkVector3 11 1 20)) ;;
      configure e 2 [wpA; wpB] true ;;;
      mutate cTargetMoving e (set_normal (mkVector3 1 0 0))) world0).

(* ===================================================================== *)
(** ** The demo scene, sequences of calls, further vocabulary *)
(* ===================================================================== *)

(** [main] (lines 12-59).  [PlayerShootingArea.Move] is a function of a
    module outside this file; it is a parameter here. *)
Definition main (PlayerShootingArea_Move : Vector3 -> M unit) : M unit :=
  PlayerShootingArea_Move (mkVector3 16 0 4) ;;;
  do targetStatic1 <- Create (mkTargetData STATIC (mkVector3 13.5 1 18)) ;;
  do targetStatic2 <- Create (mkTargetData STATIC (mkVector3 18.5 1 22)) ;;
  do targetStatic3 <- Create (mkTargetData STATIC (mkVector3 16 1 26)) ;;
  do targetMoving1 <- Create (mkTargetData MOVING (mkVector3 11 1 20)) ;;
  configure targetMoving1 1.2 [mkVector3 11 1 16; mkVector3 21 1 16] true ;;;
  do targetMoving2 <- Create (mkTargetData MOVING (mkVector3 21 1 24)) ;;
  configure targetMoving2 2.4 [mkVector3 21 1 20; mkVector3 11 1 20] true.

(** A call of one of the module's functions, of the system, or of the
    caller's customisation of a moving target. *)
Inductive call :=
| CallCreate (targetData : TargetDataObject)
| CallEnable (entity : Entity) (targetData : TargetDataObject)
| CallDisable (entity : Entity) (type : Z)
| CallDisableAll
| CallDestroy (entity : Entity)
| CallDestroyAll
| CallTick (dt : float)
| CallConfigure (entity : Entity) (s : float) (l : list Vector3) (processing : bool).

(** The state a call leaves, whether it returned or threw. *)
Definition run_call (c : call) (w : World) : World :=
  match c with
  | CallCreate td => state_of (Create td w)
  | CallEnable e td => state_of (Enable e td w)
  | CallDisable e ty => state_of (Disable e ty w)
  | CallDisableAll => state_of (DisableAll w)
  | CallDestroy e => state_of (Destroy e w)
  | CallDestroyAll => state_of (DestroyAll w)
  | CallTick dt => state_of (targetProcessingMoving dt w)
  | CallConfigure e s l b => state_of (configure e s l b w)
  end.

Definition run_calls (cs : list call) (w : World) : World :=
  foldl (fun w c => run_call c w) w cs.

Definition is_Destroy (c : call) : bool :=
  match c with CallDestroy _ => true | _ => false end.

(** A computation that leaves an observation of the world as it is,
    whether it returns or throws. *)
Definition keeps {A X : Type} (obs : World -> X) (m : M A) : Prop :=
  forall w, obs (state_of (m w)) = obs w.

(** The engine has handed out no handle from [nextEntity] on. *)
Definition engine_fresh (w : World) : Prop :=
  forall e, e ∈ dom (Transform w) ∪ dom (GltfContainer w)
              ∪ dom (TargetStaticComponent w) ∪ dom (TargetMovingComponent w) ->
    (e < nextEntity w)%N.

(** The part of the pool invariant that survives a bare [Destroy]: the
    engine's handles are fresh, every pooled handle has been handed out,
    and no handle is pooled twice, in one bucket or across the two. *)
Definition pool_sound (w : World) : Prop :=
  engine_fresh w /\
  (forall e, e ∈ pooledStatic w ++ pooledMoving w -> (e < nextEntity w)%N) /\
  NoDup (pooledStatic w ++ pooledMoving w).

(** What the movement system has no assignment to. *)
Definition beyond_movement (w : World) :=
  (nextEntity w, GltfContainer w, TargetStaticComponent w,
   pooledStatic w, pooledMoving w).

(** The fields of a moving target that only the caller and the pool
    functions set. *)
Definition settings (c : Moving.Data) :=
  (Moving.isActive c, Moving.isProcessing c, Moving.speed c, Moving.waypoints c).

(** Everything but the components of [e]. *)
Definition others (e : Entity) (w : World) :=
  (delete e (Transform w), delete e (GltfContainer w),
   delete e (TargetStaticComponent w), delete e (TargetMovingComponent w)).

(** The components of [e], and the engine's entity counter. *)
Definition components (w : World) (e : Entity) :=
  (Transform w !! e, GltfContainer w !! e,
   TargetStaticComponent w !! e, TargetMovingComponent w !! e, nextEntity w).

(** The moving targets' side of the world. *)
Definition moving_side (w : World) :=
  (TargetMovingComponent w, pooledMoving w).

Definition nan3 : Vector3 := mkVector3 nan nan nan.

(** A moving target placed on the only waypoint of its path. *)
Definition world_on_waypoint : World :=
  state_of
    ((do e <- Create (mkTargetData MOVING wpA) ;;
      configure e 1.2 [wpA] true) world0).

(** A static and a moving target, the static one destroyed but still
    pooled. *)
Definition world_dangling : World :=
  state_of (Destroy 512%N world_two_kinds).

(* ===================================================================== *)
(** ** The engine's operations: shape and frame *)
(* ===================================================================== *)

Lemma pooledObjects_set_pooledObjects ty l w :
  pooledObjects ty (set_pooledObjects ty l w) = l.
Proof. destruct ty; reflexivity. Qed.

Lemma pool_wf_shape w w' : shape w' = shape w -> pool_wf w -> pool_wf w'.
Proof.
  unfold shape, pool_wf. intros Hs. injection Hs as -> -> -> -> -> -> ->.
  done.
Qed.

Lemma pool_wf_world0 : pool_wf world0.
Proof.
  split; [|split]; cbn; intros e He.
  - inversion He.
  - inversion He.
  - rewrite !dom_empty_L, !(left_id_L ∅ (∪)) in He.
    by apply not_elem_of_empty in He.
Qed.

Lemma pooledObjects_shape ty w w' :
  shape w' = shape w -> pooledObjects ty w' = pooledObjects ty w.
Proof.
  unfold shape. intros Hs. injection Hs as _ _ _ _ _ Hs Hm.
  destruct ty; assumption.
Qed.

(** An assignment through [getMutable] changes the value at one entity of
    one store and nothing else. *)
Section Mutate.
Context (e : Entity) (w : World).

Lemma mutate_Transform f t :
  Transform w !! e = Some t ->
  mutate cTransform e f w
  = Ok tt (set_Transform (<[e := f t]> (Transform w)) w).
Proof. unfold mutate; cbn. by intros ->. Qed.

Lemma mutate_Static f c :
  TargetStaticComponent w !! e = Some c ->
  mutate cTargetStatic e f w
  = Ok tt (set_TargetStaticComponent (<[e := f c]> (TargetStaticComponent w)) w).
Proof. unfold mutate; cbn. by intros ->. Qed.

Lemma mutate_Moving f c :
  TargetMovingComponent w !! e = Some c ->
  mutate cTargetMoving e f w
  = Ok tt (set_TargetMovingComponent (<[e := f c]> (TargetMovingComponent w)) w).
Proof. unfold mutate; cbn. by intros ->. Qed.

End Mutate.

Lemma vector3_eta p : mkVector3 (x p) (y p) (z p) = p.
Proof. by destruct p. Qed.

(* ===================================================================== *)
(** ** [Destroy] and [DestroyAll] *)
(* ===================================================================== *)

Lemma DestroyAll_round_pool ty w :
  pooledObjects ty (state_of (DestroyAll_round ty w))
  = removelast (pooledObjects ty w).
Proof.
  unfold DestroyAll_round, bind, pop.
  destruct (last (pooledObjects ty w)); destruct ty; reflexivity.
Qed.

Lemma DestroyAll_round_other ty ty' w :
  ty' <> ty ->
  pooledObjects ty' (state_of (DestroyAll_round ty w)) = pooledObjects ty' w.
Proof.
  unfold DestroyAll_round, bind, pop. intros Hne.
  destruct (last (pooledObjects ty w)); destruct ty, ty'; done.
Qed.

(** The exit of the [while] loop: the test [0 < length] has failed. *)
Ltac loop_exit :=
  match goal with
  | Hle : (0 <? _) = false |- _ =>
      repeat match goal with
             | H : context [Hle] |- _ => clear H
             end;
      apply Z.ltb_ge in Hle
  end.

Lemma DestroyAll_loop_empty ty w : pooledObjects ty (DestroyAll_loop ty w) = [].
Proof.
  funelim (DestroyAll_loop ty w).
  - assumption.
  - loop_exit. destruct (pooledObjects ty w); [done | simpl in *; lia].
Qed.

Lemma DestroyAll_loop_other ty ty' w :
  ty' <> ty -> pooledObjects ty' (DestroyAll_loop ty w) = pooledObjects ty' w.
Proof.
  intros Hne. funelim (DestroyAll_loop ty w).
  - rewrite H by done. by apply DestroyAll_round_other.
  - done.
Qed.

Lemma removeEntity_gone e w : gone (removeEntity e w) e.
Proof. unfold gone; cbn. by rewrite !lookup_delete_eq. Qed.

Lemma removeEntity_keeps_gone e e' w : gone w e -> gone (removeEntity e' w) e.
Proof.
  unfold gone; cbn. intros (Ht & Hg & Hs & Hm).
  rewrite !lookup_delete_None. auto.
Qed.

Lemma DestroyAll_round_gone ty w e :
  gone w e \/ last (pooledObjects ty w) = Some e ->
  gone (state_of (DestroyAll_round ty w)) e.
Proof.
  unfold DestroyAll_round, bind, pop, Destroy.
  intros [Hg | Hl].
  - destruct (last (pooledObjects ty w)); cbn.
    + apply removeEntity_keeps_gone. by destruct ty.
    + by destruct ty.
  - rewrite Hl; cbn. apply removeEntity_gone.
Qed.

Lemma elem_of_last_or_removelast (l : list Entity) e :
  e ∈ l -> last l = Some e \/ e ∈ removelast l.
Proof.
  destruct (decide (l = [])) as [->|Hne]; [by intros ?%elem_of_nil|].
  destruct (exists_last Hne) as (l' & a & ->).
  rewrite removelast_last, last_snoc, elem_of_app, list_elem_of_singleton.
  intros [?| ->]; auto.
Qed.

Lemma DestroyAll_loop_gone ty w e :
  gone w e \/ e ∈ pooledObjects ty w -> gone (DestroyAll_loop ty w) e.
Proof.
  funelim (DestroyAll_loop ty w); intros Hor.
  - apply H. destruct Hor as [Hg | [Hl | Hin]%elem_of_last_or_removelast].
    + left. apply DestroyAll_round_gone. by left.
    + left. apply DestroyAll_round_gone. by right.
    + right. by rewrite DestroyAll_round_pool.
  - destruct Hor as [Hg | Hin]; [done|].
    loop_exit. destruct (pooledObjects ty w); [|simpl in *; lia].
    inversion Hin.
Qed.

(* ===================================================================== *)
(** ** [Disable] and [DisableAll] *)
(* ===================================================================== *)

Lemma Disable_static e w c t :
  TargetStaticComponent w !! e = Some c ->
  Transform w !! e = Some t ->
  Disable e 0 w
  = Ok tt (set_Transform (<[e := set_scale (mkVector3 0 0 0) t]> (Transform w))
            (set_TargetStaticComponent
               (<[e := Static.mk false]> (TargetStaticComponent w)) w)).
Proof.
  intros Hc Ht. unfold Disable, bind; cbn.
  rewrite (mutate_Static _ _ _ _ Hc).
  by rewrite (mutate_Transform _ _ _ t).
Qed.

Lemma Disable_moving e w c t :
  TargetMovingComponent w !! e = Some c ->
  Transform w !! e = Some t ->
  Disable e 1 w
  = Ok tt (set_Transform (<[e := set_scale (mkVector3 0 0 0) t]> (Transform w))
            (set_TargetMovingComponent
               (<[e := set_isProcessing false (set_isActive false c)]>
                  (TargetMovingComponent w)) w)).
Proof.
  intros Hc Ht. unfold Disable, bind; cbn.
  rewrite (mutate_Moving _ _ _ _ Hc).
  erewrite mutate_Moving by (cbn; apply lookup_insert_eq).
  erewrite mutate_Transform by (cbn; exact Ht).
  cbn. by rewrite insert_insert_eq.
Qed.

Lemma Disable_type_shape ty e w :
  e ∈ pooledObjects ty w -> pool_wf w ->
  exists w', Disable e (TARGET_TYPE_value ty) w = Ok tt w' /\
    shape w' = shape w /\
    active_of ty w' e = Some false /\
    (ty = MOVING -> halted w' e) /\
    (forall ty' e', (ty', e') <> (ty, e) ->
       active_of ty' w' e' = active_of ty' w e') /\
    (forall e', halted w e' -> halted w' e') /\
    (forall e', e' <> e -> Transform w' !! e' = Transform w !! e').
Proof.
  intros Hin (Hs & Hm & _).
  destruct ty; cbn in Hin.
  - destruct (Hs e Hin) as [[c Hc]%elem_of_dom [t Ht]%elem_of_dom].
    eexists. split; [by apply (Disable_static e w c t)|].
    split; [|split; [|split; [|split; [|split]]]].
    + unfold shape; cbn. rewrite !dom_insert_lookup_L; eauto.
    + cbn. by rewrite lookup_insert_eq.
    + done.
    + intros ty' e' Hne. destruct ty'; cbn; [|done].
      rewrite lookup_insert_ne; [done | congruence].
    + intros e' (c' & Hc' & ?). by exists c'.
    + intros e' Hne. cbn. by rewrite lookup_insert_ne.
  - destruct (Hm e Hin) as [[c Hc]%elem_of_dom [t Ht]%elem_of_dom].
    eexists. split; [by apply (Disable_moving e w c t)|].
    split; [|split; [|split; [|split; [|split]]]].
    + unfold shape; cbn. rewrite !dom_insert_lookup_L; eauto.
    + cbn. by rewrite lookup_insert_eq.
    + intros _. eexists. cbn. rewrite lookup_insert_eq. done.
    + intros ty' e' Hne. destruct ty'; cbn; [done|].
      rewrite lookup_insert_ne; [done | congruence].
    + intros e' (c' & Hc' & Ha & Hp). unfold halted; cbn.
      destruct (decide (e = e')) as [<-|Hne].
      * rewrite lookup_insert_eq. eexists. done.
      * rewrite lookup_insert_ne by done. by exists c'.
    + intros e' Hne. cbn. by rewrite lookup_insert_ne.
Qed.

Lemma for_each_Disable ty (l : list Entity) :
  forall w, pool_wf w -> (forall e, e ∈ l -> e ∈ pooledObjects ty w) ->
  exists w',
    for_each (fun e => Disable e (TARGET_TYPE_value ty)) l w = Ok tt w' /\
    shape w' = shape w /\
    (forall e, e ∈ l \/ active_of ty w e = Some false ->
       active_of ty w' e = Some false) /\
    (forall ty' e, ty' <> ty -> active_of ty' w' e = active_of ty' w e) /\
    (forall e, (ty = MOVING /\ e ∈ l) \/ halted w e -> halted w' e).
Proof.
  induction l as [|e0 l IH]; intros w Hwf Hin.
  - exists w. cbn. split; [done|]. split; [done|].
    split; [|split]; [| done |].
    + intros e [He|He]; [inversion He | done].
    + intros e [[_ He]|He]; [inversion He | done].
  - destruct (Disable_type_shape ty e0 w) as
      (w1 & Hrun & Hsh & Hoff & Hhalt & Hframe & Hkeep & _);
      [apply Hin; left | done |].
    destruct (IH w1) as (w' & Hrun' & Hsh' & Hoff' & Hother' & Hhalt').
    { by apply (pool_wf_shape w). }
    { intros e He. rewrite (pooledObjects_shape ty w w1 Hsh).
      apply Hin. by right. }
    exists w'. cbn. unfold bind. rewrite Hrun.
    split; [done|]. split; [congruence|]. split; [|split].
    + intros e He. apply Hoff'.
      destruct (decide (e = e0)) as [->|Hne]; [by right|].
      destruct He as [He|He].
      * left. by apply elem_of_cons in He as [?|?].
      * right. rewrite Hframe; [done | congruence].
    + intros ty' e Hne. rewrite Hother' by done.
      apply Hframe. congruence.
    + intros e He. apply Hhalt'.
      destruct He as [[-> He]|He].
      * apply elem_of_cons in He as [->|He]; [right; by apply Hhalt | left; done].
      * right. by apply Hkeep.
Qed.

Lemma DisableAll_spec w :
  pool_wf w ->
  exists w', DisableAll w = Ok tt w' /\
    shape w' = shape w /\
    (forall ty e, e ∈ pooledObjects ty w' -> active_of ty w' e = Some false) /\
    (forall e, e ∈ pooledMoving w' -> halted w' e).
Proof.
  intros Hwf.
  destruct (for_each_Disable STATIC (pooledObjects STATIC w) w)
    as (w1 & Hrun1 & Hsh1 & Hoff1 & Hother1 & _); [done | done |].
  destruct (for_each_Disable MOVING (pooledObjects MOVING w1) w1)
    as (w2 & Hrun2 & Hsh2 & Hoff2 & Hother2 & Hhalt2);
    [by apply (pool_wf_shape w) | done |].
  exists w2. unfold DisableAll, bind.
  change (TARGET_TYPE_value STATIC) with 0 in Hrun1.
  change (TARGET_TYPE_value MOVING) with 1 in Hrun2.
  rewrite Hrun1, Hrun2. split; [done|]. split; [congruence|]. split.
  - intros ty e He. destruct ty.
    + rewrite Hother2 by done. apply Hoff1. left.
      by rewrite <- (pooledObjects_shape STATIC w w1 Hsh1),
                 <- (pooledObjects_shape STATIC w1 w2 Hsh2).
    + apply Hoff2. left.
      by rewrite <- (pooledObjects_shape MOVING w1 w2 Hsh2).
  - intros e He. apply Hhalt2. left. split; [done|].
    by rewrite <- (pooledObjects_shape MOVING w1 w2 Hsh2).
Qed.

(* ===================================================================== *)
(** ** [Enable] and [Create] *)
(* ===================================================================== *)

Lemma active_of_dom ty w e :
  pool_wf w -> e ∈ pooledObjects ty w ->
  is_Some (active_of ty w e) /\ is_Some (Transform w !! e).
Proof.
  intros (Hs & Hm & _) Hin. destruct ty; cbn in *.
  - destruct (Hs e Hin) as [[c Hc]%elem_of_dom Ht%elem_of_dom].
    rewrite Hc. eauto.
  - destruct (Hm e Hin) as [[c Hc]%elem_of_dom Ht%elem_of_dom].
    rewrite Hc. eauto.
Qed.

Lemma Enable_spec ty p e w :
  is_Some (active_of ty w e) -> is_Some (Transform w !! e) ->
  exists w', Enable e (mkTargetData ty p) w = Ok e w' /\
    shape w' = shape w /\
    active_of ty w' e = Some true /\
    Transform w' !! e = Some (mkTransform p (mkVector3 1 1 1)) /\
    (forall ty' e', (ty', e') <> (ty, e) ->
       active_of ty' w' e' = active_of ty' w e') /\
    (forall e', e' <> e -> Transform w' !! e' = Transform w !! e').
Proof.
  intros [b Hb] [t Ht]. unfold Enable, bind; cbn.
  destruct ty; cbn in Hb.
  - destruct (TargetStaticComponent w !! e) as [c|] eqn:Hc; [|done].
    rewrite (mutate_Static _ _ _ _ Hc).
    erewrite mutate_Transform by (cbn; exact Ht).
    erewrite mutate_Transform by (cbn; apply lookup_insert_eq).
    eexists. split; [reflexivity|]. cbn. rewrite insert_insert_eq.
    split; [|split; [|split; [|split]]].
    + unfold shape; cbn. rewrite !dom_insert_lookup_L; eauto.
    + by rewrite lookup_insert_eq.
    + rewrite lookup_insert_eq. by rewrite vector3_eta.
    + intros ty' e' Hne. destruct ty'; cbn; [|done].
      rewrite lookup_insert_ne; [done | congruence].
    + intros e' Hne. by rewrite lookup_insert_ne.
  - destruct (TargetMovingComponent w !! e) as [c|] eqn:Hc; [|done].
    rewrite (mutate_Moving _ _ _ _ Hc).
    erewrite mutate_Transform by (cbn; exact Ht).
    erewrite mutate_Transform by (cbn; apply lookup_insert_eq).
    eexists. split; [reflexivity|]. cbn. rewrite insert_insert_eq.
    split; [|split; [|split; [|split]]].
    + unfold shape; cbn. rewrite !dom_insert_lookup_L; eauto.
    + by rewrite lookup_insert_eq.
    + rewrite lookup_insert_eq. by rewrite vector3_eta.
    + intros ty' e' Hne. destruct ty'; cbn; [done|].
      rewrite lookup_insert_ne; [done | congruence].
    + intros e' Hne. by rewrite lookup_insert_ne.
Qed.

Lemma get_isActive_Ok ty e w b :
  active_of ty w e = Some b -> get_isActive ty e w = Ok b w.
Proof.
  unfold get_isActive, active_of, bind, get, ret.
  destruct ty; cbn.
  - destruct (TargetStaticComponent w !! e); cbn; congruence.
  - destruct (TargetMovingComponent w !! e); cbn; congruence.
Qed.

Lemma Create_scan_all_active td (l : list Entity) w :
  (forall e, e ∈ l -> active_of (type td) w e = Some true) ->
  Create_scan td l w = Ok None w.
Proof.
  induction l as [|e l IH]; intros Hall; [done|].
  cbn. unfold bind. rewrite (get_isActive_Ok _ _ _ true).
  - cbn. apply IH. intros e' He'. apply Hall. by right.
  - apply Hall. by left.
Qed.

Lemma Create_scan_first td (l1 : list Entity) e l2 w :
  (forall e', e' ∈ l1 -> active_of (type td) w e' = Some true) ->
  active_of (type td) w e = Some false ->
  Create_scan td (l1 ++ e :: l2) w
  = (do reused <- Enable e td ;; ret (Some reused)) w.
Proof.
  induction l1 as [|e0 l1 IH]; intros Hall He.
  - cbn. unfold bind at 1. by rewrite (get_isActive_Ok _ _ _ false).
  - cbn. unfold bind at 1. rewrite (get_isActive_Ok _ _ _ true).
    + cbn. apply IH; [|done]. intros e' He'. apply Hall. by right.
    + apply Hall. by left.
Qed.

(** The bucket's first inactive entry, with the active ones before it. *)
Lemma first_inactive_split ty w (l : list Entity) :
  existsb (is_inactive ty w) l = true ->
  exists l1 e l2, l = l1 ++ e :: l2 /\
    (forall e', e' ∈ l1 -> is_inactive ty w e' = false) /\
    is_inactive ty w e = true.
Proof.
  induction l as [|e0 l IH]; [done|]. cbn.
  destruct (is_inactive ty w e0) eqn:He0.
  - intros _. exists [], e0, l. split; [done|]. split; [|done].
    intros e' He'. inversion He'.
  - cbn. intros (l1 & e & l2 & -> & Hl1 & He)%IH.
    exists (e0 :: l1), e, l2. split; [done|]. split; [|done].
    intros e' [->|He']%elem_of_cons; auto.
Qed.

Lemma is_inactive_false ty w e :
  is_Some (active_of ty w e) -> is_inactive ty w e = false ->
  active_of ty w e = Some true.
Proof.
  unfold is_inactive. intros [b Hb]. rewrite Hb. by destruct b.
Qed.

Lemma is_inactive_true ty w e :
  is_inactive ty w e = true -> active_of ty w e = Some false.
Proof.
  unfold is_inactive. destruct (active_of ty w e) as [[]|]; done.
Qed.

Lemma no_inactive_all_active ty w :
  pool_wf w -> has_inactive ty w = false ->
  forall e, e ∈ pooledObjects ty w -> active_of ty w e = Some true.
Proof.
  intros Hwf Hno e He. apply is_inactive_false.
  - by apply active_of_dom.
  - unfold has_inactive in Hno.
    destruct (is_inactive ty w e) eqn:Hi; [|done].
    assert (existsb (is_inactive ty w) (pooledObjects ty w) = true); [|congruence].
    apply existsb_exists. exists e. split; [|done]. by apply list_elem_of_In.
Qed.

(** The reuse path of [Create]. *)
Lemma Create_reuse ty p w (l1 : list Entity) e l2 :
  pool_wf w ->
  pooledObjects ty w = l1 ++ e :: l2 ->
  (forall e', e' ∈ l1 -> active_of ty w e' = Some true) ->
  active_of ty w e = Some false ->
  exists w', Create (mkTargetData ty p) w = Ok e w' /\
    shape w' = shape w /\
    active_of ty w' e = Some true /\
    Transform w' !! e = Some (mkTransform p (mkVector3 1 1 1)) /\
    (forall ty' e', (ty', e') <> (ty, e) ->
       active_of ty' w' e' = active_of ty' w e').
Proof.
  intros Hwf Hl Hl1 He.
  destruct (Enable_spec ty p e w) as (w' & Hrun & Hsh & Hact & Ht & Hfr & _).
  { by rewrite He. }
  { eapply active_of_dom; [done|]. rewrite Hl. set_solver. }
  exists w'. unfold Create, bind. cbn [type]. rewrite Hl.
  rewrite (Create_scan_first (mkTargetData ty p)) by done.
  unfold bind. rewrite Hrun. done.
Qed.

(** The allocating path of [Create]. *)
Lemma Create_fresh ty p w :
  pool_wf w -> has_inactive ty w = false ->
  exists w', Create (mkTargetData ty p) w = Ok (nextEntity w) w' /\
    pool_wf w' /\
    (nextEntity w ∉ pooledObjects ty w) /\
    pooledObjects ty w' = pooledObjects ty w ++ [nextEntity w] /\
    (forall ty', ty' <> ty -> pooledObjects ty' w' = pooledObjects ty' w) /\
    Transform w' !! nextEntity w = Some (mkTransform p (mkVector3 1 1 1)) /\
    GltfContainer w' !! nextEntity w
      = Some (mkGltf MODEL_TARGET_OBJECT (Some CL_POINTER) None) /\
    match ty with
    | STATIC =>
        TargetStaticComponent w' !! nextEntity w = Some (Static.mk true)
    | MOVING =>
        TargetMovingComponent w' !! nextEntity w
        = Some (Moving.mk true false 0%float 0 [] (mkVector3 0 0 0))
    end /\
    active_of ty w (nextEntity w) = None /\
    (forall ty' e', e' <> nextEntity w ->
       active_of ty' w' e' = active_of ty' w e').
Proof.
  intros Hwf Hno.
  pose proof (no_inactive_all_active ty w Hwf Hno) as Hall.
  destruct Hwf as (Hs & Hm & Hfresh).
  assert (Hnew : Transform w !! nextEntity w = None /\
                 GltfContainer w !! nextEntity w = None /\
                 TargetStaticComponent w !! nextEntity w = None /\
                 TargetMovingComponent w !! nextEntity w = None).
  { repeat split; apply not_elem_of_dom; intros Hd;
      assert ((nextEntity w < nextEntity w)%N) by (apply Hfresh; set_solver);
      lia. }
  destruct Hnew as (HnT & HnG & HnS & HnM).
  assert (Hnotin : nextEntity w ∉ pooledObjects ty w).
  { intros Hin. destruct ty; cbn in Hin.
    - destruct (Hs _ Hin) as [Hd _]. by apply not_elem_of_dom in HnS.
    - destruct (Hm _ Hin) as [Hd _]. by apply not_elem_of_dom in HnM. }
  unfold Create, bind. cbn [type pos].
  rewrite (Create_scan_all_active (mkTargetData ty p)) by done.
  unfold addEntity, create; cbn. rewrite HnT; cbn. rewrite HnG; cbn.
  destruct ty; cbn.
  - rewrite HnS; cbn. eexists. split; [reflexivity|]. cbn.
    rewrite !lookup_insert_eq, vector3_eta.
    split; [|split; [done|]; split; [done|]; split; [|split; [done|];
             split; [done|]; split; [done|]; split]].
    + split; [|split]; cbn.
      * intros e [He| ->%list_elem_of_singleton]%elem_of_app.
        -- destruct (Hs e He). set_solver.
        -- set_solver.
      * intros e He. destruct (Hm e He). set_solver.
      * intros e He. rewrite !dom_insert_L in He.
        assert (e = nextEntity w \/ (e < nextEntity w)%N) as [->|?]; [|lia|lia].
        destruct (decide (e = nextEntity w)); [by left|right].
        apply Hfresh. set_solver.
    + intros ty'. by destruct ty'.
    + done.
    + intros ty' e' Hne. destruct ty'; cbn; [|done].
      by rewrite lookup_insert_ne.
  - rewrite HnM; cbn. eexists. split; [reflexivity|]. cbn.
    rewrite !lookup_insert_eq, vector3_eta.
    split; [|split; [done|]; split; [done|]; split; [|split; [done|];
             split; [done|]; split; [done|]; split]].
    + split; [|split]; cbn.
      * intros e He. destruct (Hs e He). set_solver.
      * intros e [He| ->%list_elem_of_singleton]%elem_of_app.
        -- destruct (Hm e He). set_solver.
        -- set_solver.
      * intros e He. rewrite !dom_insert_L in He.
        assert (e = nextEntity w \/ (e < nextEntity w)%N) as [->|?]; [|lia|lia].
        destruct (decide (e = nextEntity w)); [by left|right].
        apply Hfresh. set_solver.
    + intros ty'. by destruct ty'.
    + done.
    + intros ty' e' Hne. destruct ty'; cbn; [done|].
      by rewrite lookup_insert_ne.
Qed.

(** What every call of [Create] establishes on a well-formed pool: the
    returned entity is active, stands at the requested position, is the
    first entry of its bucket that could be inactive, and was not an
    active entity before the call. *)
Lemma Create_post ty p w :
  pool_wf w ->
  exists e w' l1 l2,
    Create (mkTargetData ty p) w = Ok e w' /\
    pool_wf w' /\
    active_of ty w' e = Some true /\
    Transform w' !! e = Some (mkTransform p (mkVector3 1 1 1)) /\
    pooledObjects ty w' = l1 ++ e :: l2 /\
    (forall e', e' ∈ l1 -> active_of ty w' e' = Some true) /\
    (e ∉ l1) /\
    active_of ty w e <> Some true /\
    length (pooledObjects ty w')
    = (length (pooledObjects ty w) + (if has_inactive ty w then 0 else 1))%nat.
Proof.
  intros Hwf. destruct (has_inactive ty w) eqn:Hhas.
  - destruct (first_inactive_split ty w _ Hhas) as (l1 & e & l2 & Hl & Hl1 & He).
    apply is_inactive_true in He.
    assert (Hact1 : forall e', e' ∈ l1 -> active_of ty w e' = Some true).
    { intros e' He'. apply is_inactive_false; [|by apply Hl1].
      eapply active_of_dom; [done|]. rewrite Hl. set_solver. }
    destruct (Create_reuse ty p w l1 e l2 Hwf Hl Hact1 He)
      as (w' & Hrun & Hsh & Hact & Ht & Hfr).
    exists e, w', l1, l2. split; [done|].
    split; [by apply (pool_wf_shape w)|]. split; [done|]. split; [done|].
    rewrite !(pooledObjects_shape ty w w' Hsh).
    assert (Hnotin : e ∉ l1).
    { intros Hin. rewrite (Hact1 e Hin) in He. done. }
    split; [done|]. split; [|split; [done | split; [congruence | lia]]].
    intros e' He'. rewrite Hfr; [by apply Hact1|].
    intros [= ->]. done.
  - destruct (Create_fresh ty p w Hwf Hhas)
      as (w' & Hrun & Hwf' & Hnotin & Hl & _ & Ht & _ & Hrec & Hnone & Hfr).
    exists (nextEntity w), w', (pooledObjects ty w), []. split; [done|].
    split; [done|]. split.
    { destruct ty; cbn; by rewrite Hrec. }
    split; [done|]. split; [done|]. split; [|split; [done | split]].
    + intros e' He'. rewrite Hfr by (by intros ->).
      by apply no_inactive_all_active.
    + by rewrite Hnone.
    + rewrite Hl, length_app. cbn. lia.
Qed.

(* ===================================================================== *)
(** ** The movement system *)
(* ===================================================================== *)

Lemma moving_now_false c :
  negb (Moving.isActive c) || negb (Moving.isProcessing c) = negb (moving_now c).
Proof. unfold moving_now. by destruct (Moving.isActive c), (Moving.isProcessing c). Qed.


Lemma body_spec dt e w :
  let w' := state_of (MovingTimer_body dt e w) in
  shape w' = shape w /\
  view w' e = step_view dt (view w e) /\
  (forall e', e' <> e -> view w' e' = view w e').
Proof.
  unfold MovingTimer_body, bind, get, ret, throw, field_of, view, step_view; cbn.
  destruct (TargetMovingComponent w !! e) as [c|] eqn:Hc; cbn;
    [|by rewrite Hc].
  rewrite moving_now_false.
  destruct (moving_now c) eqn:Hnow; cbn.
  2:{ rewrite Hc. by destruct (Transform w !! e). }
  destruct (Transform w !! e) as [t|] eqn:Ht; cbn; [|by rewrite Hc, Ht].
  destruct (array_get (Moving.waypoints c) (Moving.indexCur c)) as [wp|] eqn:Hwp;
    cbn; [|by rewrite Hc, Ht].
  destruct (arrived (position t) wp) eqn:Harr; cbn.
  - rewrite (mutate_Moving _ _ _ _ Hc). cbn.
    unfold on_arrival.
    destruct (array_get (Moving.waypoints c)
                (next_index (Moving.indexCur c) (length (Moving.waypoints c))))
      as [wp'|] eqn:Hwp'; cbn.
    + erewrite mutate_Moving by (cbn; apply lookup_insert_eq).
      erewrite mutate_Transform by (cbn; exact Ht).
      cbn. rewrite insert_insert_eq, !lookup_insert_eq.
      split; [|split; [done|]].
      * unfold shape; cbn. rewrite !dom_insert_lookup_L; eauto.
      * intros e' Hne. by rewrite !lookup_insert_ne.
    + rewrite lookup_insert_eq, Ht.
      split; [|split; [done|]].
      * unfold shape; cbn. rewrite !dom_insert_lookup_L; eauto.
      * intros e' Hne. by rewrite !lookup_insert_ne.
  - rewrite (mutate_Transform _ _ _ _ Ht). cbn.
    rewrite Hc, lookup_insert_eq.
    split; [|split; [done|]].
    + unfold shape; cbn. rewrite !dom_insert_lookup_L; eauto.
    + intros e' Hne. by rewrite !lookup_insert_ne.
Qed.

Lemma next_index_range i len :
  0 <= i < Z.of_nat len -> 0 <= next_index i len < Z.of_nat len.
Proof. unfold next_index. intros H. destruct (Z.geb_spec (i + 1) (Z.of_nat len)); lia. Qed.

Lemma array_get_Some {A} (a : list A) i :
  is_Some (array_get a i) <-> 0 <= i < Z.of_nat (length a).
Proof.
  unfold array_get. destruct (Z.ltb_spec i 0).
  - split; [by intros [? ?] | lia].
  - rewrite lookup_lt_is_Some. lia.
Qed.

Lemma body_returns dt e w : ready w e -> returned (MovingTimer_body dt e w) = true.
Proof.
  unfold ready, MovingTimer_body, bind, get, ret, throw, field_of; cbn.
  destruct (TargetMovingComponent w !! e) as [c|] eqn:Hc; [|done]. cbn.
  rewrite moving_now_false.
  destruct (moving_now c) eqn:Hnow; cbn; [|done].
  intros Hr. destruct Hr as [[t Ht] Hwp]; [done|].
  pose proof Hwp as Hwp0. destruct Hwp as [wp Hwp].
  rewrite Ht, Hwp. cbn.
  destruct (arrived (position t) wp); cbn.
  - rewrite (mutate_Moving _ _ _ _ Hc). cbn.
    apply array_get_Some, next_index_range, array_get_Some in Hwp0.
    destruct Hwp0 as [wp' ->]. cbn.
    erewrite mutate_Moving by (cbn; apply lookup_insert_eq).
    by erewrite mutate_Transform by (cbn; exact Ht).
  - by rewrite (mutate_Transform _ _ _ _ Ht).
Qed.

Lemma ready_view w w' e : view w' e = view w e -> ready w e -> ready w' e.
Proof. unfold view, ready. intros [= -> ->]. done. Qed.

Lemma state_of_bind {A B} (m : M A) (k : A -> M B) w :
  state_of (bind m k w)
  = match m w with
    | Ok a w1 => state_of (k a w1)
    | Thrown w1 => w1
    end.
Proof. unfold bind. by destruct (m w). Qed.

(** The loop over a duplicate-free list of entities: every entity is left
    alone or stepped once; when no body throws, the loop returns and
    every listed entity has been stepped. *)
Lemma for_each_body_spec dt (es : list Entity) :
  forall w, NoDup es ->
  let w' := state_of (for_each (MovingTimer_body dt) es w) in
  shape w' = shape w /\
  (forall e, e ∉ es -> view w' e = view w e) /\
  (forall e, view w' e = view w e \/ view w' e = step_view dt (view w e)) /\
  ((forall e, e ∈ es -> ready w e) ->
   returned (for_each (MovingTimer_body dt) es w) = true /\
   forall e, e ∈ es -> view w' e = step_view dt (view w e)).
Proof.
  induction es as [|e0 es IH]; intros w Hnd; cbn zeta.
  - cbn. split; [done|]. split; [done|]. split; [by left|].
    intros _. split; [done|]. intros e He. inversion He.
  - apply NoDup_cons in Hnd as [Hnotin Hnd].
    destruct (body_spec dt e0 w) as (Hsh0 & Hv0 & Hfr0).
    cbn [for_each]. rewrite state_of_bind. unfold bind.
    destruct (MovingTimer_body dt e0 w) as [[] w1|w1] eqn:Hbody; cbn in Hsh0, Hv0, Hfr0.
    + destruct (IH w1 Hnd) as (Hsh & Hout & Hin & Hall).
      split; [congruence|]. split; [|split].
      * intros e He. apply not_elem_of_cons in He as [Hne He].
        rewrite Hout by done. by apply Hfr0.
      * intros e. destruct (decide (e = e0)) as [->|Hne].
        -- right. rewrite Hout by done. done.
        -- rewrite <- (Hfr0 e Hne). apply Hin.
      * intros Hready.
        destruct Hall as [Hret Hstep].
        { intros e He. apply (ready_view w).
          - apply Hfr0. intros ->. done.
          - apply Hready. by right. }
        split; [done|].
        intros e [->|He]%elem_of_cons.
        -- rewrite Hout by done. done.
        -- rewrite Hstep by done. rewrite Hfr0; [done|]. by intros ->.
    + cbn. split; [done|]. split; [|split].
      * intros e He. apply not_elem_of_cons in He as [Hne He]. by apply Hfr0.
      * intros e. destruct (decide (e = e0)) as [->|Hne]; [by right|].
        left. by apply Hfr0.
      * intros Hready.
        pose proof (body_returns dt e0 w (Hready e0 ltac:(by left))) as Hret.
        by rewrite Hbody in Hret.
Qed.

(** One tick of the system. *)
Lemma tick_spec dt w :
  let w' := state_of (targetProcessingMoving dt w) in
  shape w' = shape w /\
  (forall e, view w' e = view w e \/ view w' e = step_view dt (view w e)) /\
  (tick_ready w ->
   returned (targetProcessingMoving dt w) = true /\
   forall e, view w' e = step_view dt (view w e)).
Proof.
  unfold targetProcessingMoving, getEntitiesWith; cbn [store cTargetMoving].
  destruct (for_each_body_spec dt (map_to_list (TargetMovingComponent w)).*1 w)
    as (Hsh & Hout & Hin & Hall).
  { apply NoDup_fst_map_to_list. }
  assert (Hdom : forall e, e ∈ (map_to_list (TargetMovingComponent w)).*1
                           <-> e ∈ dom (TargetMovingComponent w)).
  { intros e. rewrite elem_of_dom, list_elem_of_fmap. split.
    - intros ([e' c] & -> & Hc%elem_of_map_to_list). eauto.
    - intros [c Hc]. exists (e, c). by rewrite elem_of_map_to_list. }
  split; [done|]. split; [done|].
  intros Hready. destruct Hall as [Hret Hstep].
  { intros e He. apply Hready. by apply Hdom. }
  split; [done|]. intros e.
  destruct (decide (e ∈ dom (TargetMovingComponent w))) as [He|He].
  - apply Hstep. by apply Hdom.
  - rewrite Hout by (by rewrite Hdom).
    apply not_elem_of_dom in He. unfold view, step_view. by rewrite He.
Qed.

Lemma tick_returns dt w :
  tick_ready w -> exists w', targetProcessingMoving dt w = Ok tt w'.
Proof.
  intros Hr. destruct (tick_spec dt w) as (_ & _ & Hall).
  destruct (Hall Hr) as [Hret _].
  destruct (targetProcessingMoving dt w) as [[] w'|]; [eauto | done].
Qed.

(* ===================================================================== *)
(** ** Adding a zero to a number *)
(* ===================================================================== *)

Lemma finite_SF a :
  is_finite a = true ->
  (exists s, Prim2SF a = S754_zero s) \/
  (exists s m e, Prim2SF a = S754_finite s m e).
Proof.
  unfold is_finite. intros [Hnan Hinf]%negb_true_iff%orb_false_iff.
  unfold Prim2SF. rewrite Hnan, Hinf.
  destruct (is_zero a); [eauto|].
  destruct (Z.frexp a) as [r ex].
  destruct (shr_fexp _ _ _ _ _) as [sh e'].
  destruct (shr_m sh); eauto.
Qed.

Lemma mul_zero_SF a :
  is_finite a = true -> exists s, Prim2SF (a * 0) = S754_zero s.
Proof.
  intros Hfin. rewrite mul_spec.
  change (Prim2SF 0) with (S754_zero false).
  destruct (finite_SF a Hfin) as [[s ->] | (s & m & e & ->)]; cbn; eauto.
Qed.

Lemma same_num_refl a : same_num a a.
Proof. by left. Qed.

Lemma same_num_trans a b c : same_num a b -> same_num b c -> same_num a c.
Proof.
  intros [->|(s1 & s2 & Ha & Hb)] [->|(s3 & s4 & Hb' & Hc)].
  - by left.
  - right. eauto.
  - right. eauto.
  - right. eauto.
Qed.

Lemma add_zero_same p z s :
  Prim2SF z = S754_zero s -> same_num (p + z) p.
Proof.
  intros Hz. unfold same_num.
  pose proof (add_spec p z) as Hadd. rewrite Hz in Hadd.
  unfold SF64add, SFadd in Hadd.
  destruct (Prim2SF p) as [sp | sp | | sp mp ep] eqn:Hp.
  - right. destruct sp, s; eauto.
  - left. apply Prim2SF_inj. congruence.
  - left. apply Prim2SF_inj. congruence.
  - left. apply Prim2SF_inj. congruence.
Qed.

Lemma same_num_test a b w eps :
  same_num a b -> (abs (a - w) <? eps)%float = (abs (b - w) <? eps)%float.
Proof.
  intros [->|(s & s' & Ha & Hb)]; [done|].
  rewrite !ltb_spec, !abs_spec, !sub_spec, Ha, Hb.
  unfold SF64sub, SFsub.
  destruct (Prim2SF w) as [sw | sw | | sw mw ew]; try done.
  by destruct s, s', sw.
Qed.

Lemma same_place_refl p : same_place p p.
Proof. repeat split; apply same_num_refl. Qed.

Lemma same_place_trans p q r : same_place p q -> same_place q r -> same_place p r.
Proof.
  intros (? & ? & ?) (? & ? & ?). repeat split; by eapply same_num_trans.
Qed.

Lemma same_place_arrived p q wp :
  same_place p q -> arrived p wp = arrived q wp.
Proof.
  intros (Hx & Hy & Hz). unfold arrived.
  by rewrite (same_num_test _ _ _ _ Hx), (same_num_test _ _ _ _ Hy),
             (same_num_test _ _ _ _ Hz).
Qed.

(** With a zero direction the position keeps its place. *)
Lemma advance_zero dt speed pos :
  is_finite (dt * speed) = true ->
  same_place (advance dt speed (mkVector3 0 0 0) pos) pos.
Proof.
  intros Hfin. destruct (mul_zero_SF _ Hfin) as [s Hs].
  unfold advance, same_place; cbn.
  repeat split; by apply (add_zero_same _ _ s).
Qed.

Lemma Create_wf ty p w :
  pool_wf w -> pool_wf (state_of (Create (mkTargetData ty p) w)).
Proof.
  intros Hwf. destruct (Create_post ty p w Hwf) as (e & w' & l1 & l2 & -> & Hwf' & _).
  done.
Qed.

Lemma DisableAll_wf w : pool_wf w -> pool_wf (state_of (DisableAll w)).
Proof.
  intros Hwf. destruct (DisableAll_spec w Hwf) as (w' & -> & Hsh & _).
  by apply (pool_wf_shape w).
Qed.

(* ===================================================================== *)
(** ** The pool: statements of the specification *)
(* ===================================================================== *)

Lemma pool_wf_world_two_idle : pool_wf world_two_idle.
Proof. apply DisableAll_wf, Create_wf, Create_wf, pool_wf_world0. Qed.

(** C1 (pool reuse).  On a well-formed pool, for any kind and positions
    [p1], [p2]: [Create(kind, p1)], then [Disable] of the returned entity,
    then [Create(kind, p2)] all return, the second [Create] returns the
    handle of the first, that entity is then active and positioned at
    [p2], and both buckets and the engine's entity counter are as they
    were after the first [Create]: nothing was allocated. *)
Theorem pool_reuse (w : World) (ty : TARGET_TYPE) (p1 p2 : Vector3) :
  pool_wf w ->
  exists e w1 w2 w3,
    Create (mkTargetData ty p1) w = Ok e w1 /\
    Disable e (TARGET_TYPE_value ty) w1 = Ok tt w2 /\
    Create (mkTargetData ty p2) w2 = Ok e w3 /\
    active_of ty w3 e = Some true /\
    position <$> Transform w3 !! e = Some p2 /\
    length (pooledObjects ty w3) = length (pooledObjects ty w1) /\
    (forall ty', pooledObjects ty' w3 = pooledObjects ty' w1) /\
    nextEntity w3 = nextEntity w1.
Proof.
  intros Hwf.
  destruct (Create_post ty p1 w Hwf)
    as (e & w1 & l1 & l2 & Hrun1 & Hwf1 & Hact1 & _ & Hl & Hl1 & Hnotin & _).
  assert (Hin : e ∈ pooledObjects ty w1) by (rewrite Hl; set_solver).
  destruct (Disable_type_shape ty e w1 Hin Hwf1)
    as (w2 & Hrun2 & Hsh2 & Hoff2 & _ & Hfr2 & _).
  assert (Hwf2 : pool_wf w2) by (by apply (pool_wf_shape w1)).
  destruct (Create_reuse ty p2 w2 l1 e l2 Hwf2)
    as (w3 & Hrun3 & Hsh3 & Hact3 & Ht3 & _).
  { by rewrite (pooledObjects_shape ty w1 w2 Hsh2). }
  { intros e' He'. rewrite Hfr2; [by apply Hl1|].
    intros [= ->]. done. }
  { done. }
  exists e, w1, w2, w3. split; [done|]. split; [done|]. split; [done|].
  split; [done|]. split; [by rewrite Ht3|].
  assert (Hsh : shape w3 = shape w1) by congruence.
  split; [by rewrite (pooledObjects_shape ty w1 w3 Hsh)|].
  split; [intros ty'; by apply pooledObjects_shape|].
  unfold shape in Hsh. by injection Hsh.
Qed.

Lemma pool_reuse_witness :
  pool_wf world_two_idle /\
  exists e w1 w2 w3,
    Create (mkTargetData STATIC (mkVector3 16 1 26)) world_two_idle = Ok e w1 /\
    Disable e (TARGET_TYPE_value STATIC) w1 = Ok tt w2 /\
    Create (mkTargetData STATIC (mkVector3 11 1 20)) w2 = Ok e w3 /\
    active_of STATIC w3 e = Some true /\
    position <$> Transform w3 !! e = Some (mkVector3 11 1 20) /\
    length (pooledObjects STATIC w3) = length (pooledObjects STATIC w1) /\
    (forall ty', pooledObjects ty' w3 = pooledObjects ty' w1) /\
    nextEntity w3 = nextEntity w1.
Proof.
  split; [exact pool_wf_world_two_idle|].
  exact (pool_reuse world_two_idle STATIC (mkVector3 16 1 26) (mkVector3 11 1 20)
           pool_wf_world_two_idle).
Defined.

(** C2 as stated fails: with two disabled targets in the bucket, two
    calls of [Create] in a row reuse one each and the bucket does not
    grow. *)
Lemma no_premature_reuse_counterexample :
  ~ (forall (w : World) (ty : TARGET_TYPE) (p1 p2 : Vector3),
       pool_wf w ->
       exists e1 w1 e2 w2,
         Create (mkTargetData ty p1) w = Ok e1 w1 /\
         Create (mkTargetData ty p2) w1 = Ok e2 w2 /\
         e2 <> e1 /\
         length (pooledObjects ty w2) = S (length (pooledObjects ty w1))).
Proof.
  intros Hclaim.
  destruct (Hclaim world_two_idle STATIC (mkVector3 16 1 26) (mkVector3 11 1 20)
              pool_wf_world_two_idle)
    as (e1 & w1 & e2 & w2 & Hrun1 & Hrun2 & _ & Hlen).
  vm_compute in Hrun1. injection Hrun1 as <- <-.
  vm_compute in Hrun2. injection Hrun2 as <- <-.
  vm_compute in Hlen. discriminate Hlen.
Qed.

(** C2 (no premature reuse), amended.  On a well-formed pool, for any
    kind: [Create(kind, p1)] and then, while that entity is still active,
    [Create(kind, p2)] return distinct handles; the bucket grows by
    exactly one entry when no inactive entity is left in it after the
    first [Create], and keeps its length otherwise, the second call
    reusing an inactive entry. *)
Theorem no_premature_reuse (w : World) (ty : TARGET_TYPE) (p1 p2 : Vector3) :
  pool_wf w ->
  exists e1 w1 e2 w2,
    Create (mkTargetData ty p1) w = Ok e1 w1 /\
    active_of ty w1 e1 = Some true /\
    Create (mkTargetData ty p2) w1 = Ok e2 w2 /\
    e2 <> e1 /\
    length (pooledObjects ty w2)
    = (length (pooledObjects ty w1) + (if has_inactive ty w1 then 0 else 1))%nat.
Proof.
  intros Hwf.
  destruct (Create_post ty p1 w Hwf)
    as (e1 & w1 & l1 & l2 & Hrun1 & Hwf1 & Hact1 & _).
  destruct (Create_post ty p2 w1 Hwf1)
    as (e2 & w2 & l1' & l2' & Hrun2 & _ & _ & _ & _ & _ & _ & Hnot & Hlen).
  exists e1, w1, e2, w2. repeat split; try done.
  intros ->. done.
Qed.

Lemma no_premature_reuse_witness :
  pool_wf world0 /\
  exists e1 w1 e2 w2,
    Create (mkTargetData MOVING (mkVector3 11 1 20)) world0 = Ok e1 w1 /\
    active_of MOVING w1 e1 = Some true /\
    Create (mkTargetData MOVING (mkVector3 21 1 24)) w1 = Ok e2 w2 /\
    e2 <> e1 /\
    length (pooledObjects MOVING w2)
    = (length (pooledObjects MOVING w1)
       + (if has_inactive MOVING w1 then 0 else 1))%nat.
Proof.
  split; [exact pool_wf_world0|].
  exact (no_premature_reuse world0 MOVING (mkVector3 11 1 20) (mkVector3 21 1 24)
           pool_wf_world0).
Defined.

(** C7 (fresh-creation initialization).  On a well-formed pool whose
    bucket of the requested kind holds no inactive entity, [Create]
    returns a handle that is new (the engine's next handle, carrying no
    component and in no bucket before the call), positioned at the
    requested position, with a state record [isActive = true] for a
    static target and [isActive = true], [isProcessing = false],
    [indexCur = 0] (and [speed], [waypoints], [normal] at the schema
    defaults) for a moving one; the handle is appended to the bucket of
    its kind and the other bucket is unchanged. *)
Theorem fresh_creation (w : World) (ty : TARGET_TYPE) (p : Vector3) :
  pool_wf w -> has_inactive ty w = false ->
  exists e w',
    Create (mkTargetData ty p) w = Ok e w' /\
    e = nextEntity w /\ gone w e /\ (forall ty', e ∉ pooledObjects ty' w) /\
    position <$> Transform w' !! e = Some p /\
    match ty with
    | STATIC => TargetStaticComponent w' !! e = Some (Static.mk true)
    | MOVING =>
        exists c, TargetMovingComponent w' !! e = Some c /\
          Moving.isActive c = true /\ Moving.isProcessing c = false /\
          Moving.indexCur c = 0 /\
          c = Moving.mk true false 0%float 0 [] (mkVector3 0 0 0)
    end /\
    pooledObjects ty w' = pooledObjects ty w ++ [e] /\
    (forall ty', ty' <> ty -> pooledObjects ty' w' = pooledObjects ty' w).
Proof.
  intros Hwf Hno.
  destruct (Create_fresh ty p w Hwf Hno)
    as (w' & Hrun & _ & _ & Hl & Hother & Ht & _ & Hrec & _).
  exists (nextEntity w), w'. split; [done|]. split; [done|].
  destruct Hwf as (Hs & Hm & Hfresh).
  assert (Hgone : gone w (nextEntity w)).
  { repeat split; apply not_elem_of_dom; intros Hd;
      assert ((nextEntity w < nextEntity w)%N) by (apply Hfresh; set_solver);
      lia. }
  split; [done|]. split.
  { destruct Hgone as (_ & _ & HnS & HnM). intros ty' Hin. destruct ty'; cbn in Hin.
    - destruct (Hs _ Hin) as [Hd _]. by apply not_elem_of_dom in HnS.
    - destruct (Hm _ Hin) as [Hd _]. by apply not_elem_of_dom in HnM. }
  split; [by rewrite Ht|]. split; [|done].
  destruct ty; [done|]. eexists. split; [exact Hrec|]. done.
Qed.

Lemma fresh_creation_witness :
  (pool_wf world_two_idle /\ has_inactive MOVING world_two_idle = false) /\
  exists e w',
    Create (mkTargetData MOVING (mkVector3 11 1 20)) world_two_idle = Ok e w' /\
    e = nextEntity world_two_idle /\ gone world_two_idle e /\
    (forall ty', e ∉ pooledObjects ty' world_two_idle) /\
    position <$> Transform w' !! e = Some (mkVector3 11 1 20) /\
    (exists c, TargetMovingComponent w' !! e = Some c /\
       Moving.isActive c = true /\ Moving.isProcessing c = false /\
       Moving.indexCur c = 0 /\
       c = Moving.mk true false 0%float 0 [] (mkVector3 0 0 0)) /\
    pooledObjects MOVING w' = pooledObjects MOVING world_two_idle ++ [e] /\
    (forall ty', ty' <> MOVING ->
       pooledObjects ty' w' = pooledObjects ty' world_two_idle).
Proof.
  split; [split; [exact pool_wf_world_two_idle | reflexivity]|].
  exact (fresh_creation world_two_idle MOVING (mkVector3 11 1 20)
           pool_wf_world_two_idle eq_refl).
Defined.

(** C8 (DisableAll/DestroyAll coverage).  On a well-formed pool
    [DisableAll] returns, leaves the buckets as they are, and afterwards
    every entity of either bucket has [isActive = false] and every entity
    of the moving bucket has [isProcessing = false] as well.  [DestroyAll]
    returns on any pool, leaves both buckets empty, and has removed every
    entity that was in a bucket from the engine. *)
Theorem DisableAll_DestroyAll_coverage (w : World) :
  (pool_wf w ->
   exists w', DisableAll w = Ok tt w' /\
     (forall ty, pooledObjects ty w' = pooledObjects ty w) /\
     (forall ty e, e ∈ pooledObjects ty w' -> active_of ty w' e = Some false) /\
     (forall e, e ∈ pooledObjects MOVING w' ->
        exists c, TargetMovingComponent w' !! e = Some c /\
          Moving.isActive c = false /\ Moving.isProcessing c = false)) /\
  (exists w', DestroyAll w = Ok tt w' /\
     pooledObjects STATIC w' = [] /\ pooledObjects MOVING w' = [] /\
     (forall ty e, e ∈ pooledObjects ty w -> gone w' e)).
Proof.
  split.
  - intros Hwf. destruct (DisableAll_spec w Hwf) as (w' & Hrun & Hsh & Hoff & Hhalt).
    exists w'. split; [done|]. split; [|split; [done|]].
    + intros ty. by apply pooledObjects_shape.
    + intros e He. by apply Hhalt.
  - eexists. split; [reflexivity|]. split; [|split].
    + rewrite DestroyAll_loop_other by done. apply DestroyAll_loop_empty.
    + apply DestroyAll_loop_empty.
    + intros ty e He. apply DestroyAll_loop_gone. destruct ty.
      * left. apply DestroyAll_loop_gone. by right.
      * right. by rewrite DestroyAll_loop_other.
Qed.

Lemma pool_wf_world_two_kinds : pool_wf world_two_kinds.
Proof. apply Create_wf, Create_wf, pool_wf_world0. Qed.

Lemma DisableAll_DestroyAll_coverage_witness :
  pool_wf world_two_kinds /\
  (exists w', DisableAll world_two_kinds = Ok tt w' /\
     (forall ty, pooledObjects ty w' = pooledObjects ty world_two_kinds) /\
     (forall ty e, e ∈ pooledObjects ty w' -> active_of ty w' e = Some false) /\
     (forall e, e ∈ pooledObjects MOVING w' ->
        exists c, TargetMovingComponent w' !! e = Some c /\
          Moving.isActive c = false /\ Moving.isProcessing c = false)) /\
  (exists w', DestroyAll world_two_kinds = Ok tt w' /\
     pooledObjects STATIC w' = [] /\ pooledObjects MOVING w' = [] /\
     (forall ty e, e ∈ pooledObjects ty world_two_kinds -> gone w' e)).
Proof.
  split; [exact pool_wf_world_two_kinds|].
  split.
  - exact (proj1 (DisableAll_DestroyAll_coverage world_two_kinds)
             pool_wf_world_two_kinds).
  - exact (proj2 (DisableAll_DestroyAll_coverage world_two_kinds)).
Defined.

(** C9 (Destroy frame).  [Destroy(entity)] returns, removes the entity
    from the engine, and leaves both buckets as they are, the destroyed
    handle included; every component of every other entity is
    unchanged. *)
Theorem Destroy_frame (w : World) (entity : Entity) :
  exists w', Destroy entity w = Ok tt w' /\
    gone w' entity /\
    pooledStatic w' = pooledStatic w /\ pooledMoving w' = pooledMoving w /\
    (forall ty, entity ∈ pooledObjects ty w -> entity ∈ pooledObjects ty w') /\
    (forall e', e' <> entity ->
       Transform w' !! e' = Transform w !! e' /\
       GltfContainer w' !! e' = GltfContainer w !! e' /\
       TargetStaticComponent w' !! e' = TargetStaticComponent w !! e' /\
       TargetMovingComponent w' !! e' = TargetMovingComponent w !! e').
Proof.
  eexists. split; [reflexivity|].
  split; [apply removeEntity_gone|]. split; [done|]. split; [done|].
  split; [intros ty; by destruct ty|].
  intros e' Hne. cbn. by rewrite !lookup_delete_ne.
Qed.

(* ===================================================================== *)
(** ** The movement system: statements of the specification *)
(* ===================================================================== *)

Lemma tick_readyb_ready w : tick_readyb w = true -> tick_ready w.
Proof.
  unfold tick_readyb, tick_ready, getEntitiesWith; cbn [store cTargetMoving].
  rewrite forallb_forall. intros Hall e [c Hc]%elem_of_dom.
  specialize (Hall e). unfold readyb, ready in *. rewrite Hc in *.
  intros Hnow. rewrite Hnow in Hall.
  assert (Hin : In e (map_to_list (TargetMovingComponent w)).*1).
  { apply list_elem_of_In, list_elem_of_fmap. exists (e, c).
    by rewrite elem_of_map_to_list. }
  apply Hall, andb_true_iff in Hin as [H1 H2].
  by apply bool_decide_eq_true in H1, H2.
Qed.

Lemma arrived_spec p wp : arrived p wp = true <-> arrival_spec p wp.
Proof. unfold arrived, arrival_spec, flt. rewrite !andb_true_iff. tauto. Qed.

Lemma next_index_mod i len :
  0 <= i < Z.of_nat len -> next_index i len = (i + 1) mod Z.of_nat len.
Proof.
  unfold next_index. intros H. destruct (Z.geb_spec (i + 1) (Z.of_nat len)).
  - assert (i + 1 = Z.of_nat len) as -> by lia. by rewrite Z.mod_same by lia.
  - by rewrite Z.mod_small by lia.
Qed.

(** One tick on an entity that is active and processing, in a world where
    no loop body throws. *)
Lemma tick_moving dt w e c t wp :
  tick_ready w ->
  TargetMovingComponent w !! e = Some c -> moving_now c = true ->
  Transform w !! e = Some t ->
  array_get (Moving.waypoints c) (Moving.indexCur c) = Some wp ->
  exists w' wp',
    targetProcessingMoving dt w = Ok tt w' /\
    array_get (Moving.waypoints c)
      (next_index (Moving.indexCur c) (length (Moving.waypoints c))) = Some wp' /\
    on_arrival c (position t)
    = set_normal (unit_towards (position t) wp')
        (set_indexCur (next_index (Moving.indexCur c)
                         (length (Moving.waypoints c))) c) /\
    view w' e
    = if arrived (position t) wp then
        (Some (on_arrival c (position t)),
         Some (set_position
                 (advance dt (Moving.speed c)
                    (unit_towards (position t) wp') (position t)) t))
      else
        (Some c,
         Some (set_position
                 (advance dt (Moving.speed c) (Moving.normal c) (position t)) t)).
Proof.
  intros Hready Hc Hnow Ht Hwp.
  destruct (tick_returns dt w Hready) as [w' Hrun].
  destruct (tick_spec dt w) as (_ & _ & Hall).
  destruct (Hall Hready) as [_ Hstep]. rewrite Hrun in Hstep. cbn in Hstep.
  assert (Hnext : is_Some (array_get (Moving.waypoints c)
            (next_index (Moving.indexCur c) (length (Moving.waypoints c))))).
  { apply array_get_Some, next_index_range, array_get_Some. eauto. }
  destruct Hnext as [wp' Hwp'].
  exists w', wp'. split; [done|]. split; [done|].
  split; [unfold on_arrival; by rewrite Hwp'|].
  rewrite Hstep. unfold view, step_view. rewrite Hc, Ht, Hnow, Hwp, Hwp'.
  done.
Qed.

Lemma sub_self_test a :
  is_finite a = true -> (abs (a - a) <? 0.05)%float = true.
Proof.
  intros Hfin. rewrite ltb_spec, abs_spec, sub_spec.
  unfold SF64sub, SFsub.
  destruct (finite_SF a Hfin) as [[s ->] | (s & m & e & ->)].
  - by destruct s.
  - cbn zeta. rewrite Z.sub_diag. reflexivity.
Qed.

(** C3 (arrival tolerance asymmetry).  On a tick in which no loop body
    throws, an active, processing entity at position [p] with current
    waypoint [wp] gets the arrival update exactly when
    [|p.x - wp.x| < 0.05], [|p.y - wp.y| < 0.05] and [|p.z - wp.z| < 0.02],
    and its component is left as it is otherwise.  In particular an
    entity equal to its waypoint in [x], with a y-difference of [0.04]
    and a z-difference of [0.01], is judged arrived, and one with a
    y-difference of [0.06] is not. *)
Theorem arrival_tolerance_asymmetry
    (dt : float) (w : World) (e : Entity) (c : Moving.Data)
    (t : TransformData) (wp : Vector3) :
  tick_ready w ->
  TargetMovingComponent w !! e = Some c -> moving_now c = true ->
  Transform w !! e = Some t ->
  array_get (Moving.waypoints c) (Moving.indexCur c) = Some wp ->
  exists w' c',
    targetProcessingMoving dt w = Ok tt w' /\
    TargetMovingComponent w' !! e = Some c' /\
    (arrived (position t) wp = true <-> arrival_spec (position t) wp) /\
    (arrival_spec (position t) wp -> c' = on_arrival c (position t)) /\
    (~ arrival_spec (position t) wp -> c' = c) /\
    (x (position t) = x wp -> is_finite (x wp) = true ->
     abs (y (position t) - y wp) = 0.04%float ->
     abs (z (position t) - z wp) = 0.01%float ->
     c' = on_arrival c (position t)) /\
    (abs (y (position t) - y wp) = 0.06%float -> c' = c).
Proof.
  intros Hready Hc Hnow Ht Hwp.
  destruct (tick_moving dt w e c t wp Hready Hc Hnow Ht Hwp)
    as (w' & wp' & Hrun & _ & _ & Hview).
  assert (Hc' : TargetMovingComponent w' !! e
                = Some (if arrived (position t) wp
                        then on_arrival c (position t) else c)).
  { unfold view in Hview. destruct (arrived (position t) wp); congruence. }
  eexists w', _. split; [done|]. split; [exact Hc'|].
  split; [apply arrived_spec|].
  split; [|split; [|split]].
  - intros Hs%arrived_spec. by rewrite Hs.
  - intros Hn. destruct (arrived (position t) wp) eqn:Ha; [|done].
    by apply arrived_spec in Ha.
  - intros Hx Hfin Hy Hz.
    assert (arrived (position t) wp = true) as ->; [|done].
    unfold arrived. rewrite Hx, Hy, Hz, (sub_self_test _ Hfin). reflexivity.
  - intros Hy.
    assert (arrived (position t) wp = false) as ->; [|done].
    unfold arrived. rewrite Hy.
    change (0.06 <? 0.05)%float with false.
    by rewrite andb_false_r.
Qed.

Lemma arrival_tolerance_asymmetry_witness :
  let w := world_one_moving (mkVector3 11 1.04 16.01) 0 in
  let c := Moving.mk true true 1.2 0 [wpA; wpB] (mkVector3 0 0 0) in
  let t := mkTransform (mkVector3 11 1.04 16.01) (mkVector3 1 1 1) in
  (tick_ready w /\
   TargetMovingComponent w !! 512%N = Some c /\ moving_now c = true /\
   Transform w !! 512%N = Some t /\
   array_get (Moving.waypoints c) (Moving.indexCur c) = Some wpA) /\
  exists w',
    targetProcessingMoving 0.5 w = Ok tt w' /\
    TargetMovingComponent w' !! 512%N = Some (on_arrival c (position t)).
Proof.
  intros w c t.
  assert (Hr : tick_ready w) by (apply tick_readyb_ready; reflexivity).
  split; [repeat split; [exact Hr | reflexivity ..]|].
  destruct (arrival_tolerance_asymmetry 0.5 w 512%N c t wpA Hr
              eq_refl eq_refl eq_refl eq_refl)
    as (w' & c' & Hrun & Hc' & _ & Hyes & _).
  exists w'. split; [exact Hrun|].
  rewrite Hc'. f_equal. apply Hyes.
  unfold arrival_spec, flt. repeat split; reflexivity.
Defined.

(** The two scenes of the specification, evaluated: next to the waypoint
    [(11, 1, 16)], a target at [y = 1.04], [z = 16.01] has arrived and
    one at [y = 1.06] has not. *)
Lemma arrival_examples :
  arrived (mkVector3 11 1.04 16.01) wpA = true /\
  arrived (mkVector3 11 1.06 16.01) wpA = false /\
  arrived (mkVector3 11 1.04 16.03) wpA = false.
Proof. repeat split; reflexivity. Qed.

(** C4 (cyclic waypoint advance).  On a tick in which no loop body
    throws, for an active, processing entity with non-empty waypoints and
    [0 <= indexCur < length waypoints] whose arrival test succeeds, the
    index becomes [(indexCur + 1) mod length waypoints], which is again
    an index of the waypoints; with waypoints [[A, B]] and index [1] it
    becomes [0], the index of [A]. *)
Theorem cyclic_waypoint_advance
    (dt : float) (w : World) (e : Entity) (c : Moving.Data)
    (t : TransformData) (wp : Vector3) :
  tick_ready w ->
  TargetMovingComponent w !! e = Some c -> moving_now c = true ->
  Transform w !! e = Some t ->
  Moving.waypoints c <> [] ->
  0 <= Moving.indexCur c < Z.of_nat (length (Moving.waypoints c)) ->
  array_get (Moving.waypoints c) (Moving.indexCur c) = Some wp ->
  arrived (position t) wp = true ->
  exists w' c',
    targetProcessingMoving dt w = Ok tt w' /\
    TargetMovingComponent w' !! e = Some c' /\
    Moving.waypoints c' = Moving.waypoints c /\
    Moving.indexCur c'
    = (Moving.indexCur c + 1) mod Z.of_nat (length (Moving.waypoints c)) /\
    0 <= Moving.indexCur c' < Z.of_nat (length (Moving.waypoints c)) /\
    (forall A B, Moving.waypoints c = [A; B] -> Moving.indexCur c = 1 ->
       Moving.indexCur c' = 0 /\
       array_get (Moving.waypoints c') (Moving.indexCur c') = Some A).
Proof.
  intros Hready Hc Hnow Ht _ Hrange Hwp Harr.
  destruct (tick_moving dt w e c t wp Hready Hc Hnow Ht Hwp)
    as (w' & wp' & Hrun & Hwp' & Hon & Hview).
  rewrite Harr in Hview. unfold view in Hview.
  exists w', (on_arrival c (position t)).
  split; [done|]. split; [congruence|].
  rewrite Hon. cbn.
  split; [done|]. split; [by apply next_index_mod|].
  split; [by apply next_index_range|].
  intros A B HAB Hi. rewrite HAB, Hi. done.
Qed.

Lemma cyclic_waypoint_advance_witness :
  let w := world_one_moving wpB 1 in
  let c := Moving.mk true true 1.2 1 [wpA; wpB] (mkVector3 0 0 0) in
  let t := mkTransform wpB (mkVector3 1 1 1) in
  (tick_ready w /\
   TargetMovingComponent w !! 512%N = Some c /\ moving_now c = true /\
   Transform w !! 512%N = Some t /\
   Moving.waypoints c <> [] /\
   0 <= Moving.indexCur c < Z.of_nat (length (Moving.waypoints c)) /\
   array_get (Moving.waypoints c) (Moving.indexCur c) = Some wpB /\
   arrived (position t) wpB = true) /\
  exists w' c',
    targetProcessingMoving 0.5 w = Ok tt w' /\
    TargetMovingComponent w' !! 512%N = Some c' /\
    Moving.indexCur c' = 0.
Proof.
  intros w c t.
  assert (Hr : tick_ready w) by (apply tick_readyb_ready; reflexivity).
  assert (Hne : Moving.waypoints c <> []) by discriminate.
  assert (Hrange : 0 <= Moving.indexCur c < Z.of_nat (length (Moving.waypoints c)))
    by (cbn; lia).
  split; [repeat split; try exact Hr; try exact Hne; try reflexivity; cbn; lia|].
  destruct (cyclic_waypoint_advance 0.5 w 512%N c t wpB Hr
              eq_refl eq_refl eq_refl Hne Hrange eq_refl eq_refl)
    as (w' & c' & Hrun & Hc' & _ & Hidx & _).
  exists w', c'. auto.
Defined.

Lemma tick_idle dt w e c :
  TargetMovingComponent w !! e = Some c -> moving_now c = false ->
  view (state_of (targetProcessingMoving dt w)) e = view w e.
Proof.
  intros Hc Hidle. destruct (tick_spec dt w) as (_ & Hstep & _).
  destruct (Hstep e) as [Hv|Hv]; [done|]. rewrite Hv.
  unfold view, step_view. rewrite Hc, Hidle.
  by destruct (Transform w !! e).
Qed.

(** C5 (idle motion).  A moving entity with [isProcessing = false] or
    [isActive = false] keeps its transform, its position in particular,
    and its component through any run of ticks, whatever the values of
    [dt], and whether the ticks return or throw. *)
Theorem idle_motion (dts : list float) (w : World) (e : Entity) (c : Moving.Data) :
  TargetMovingComponent w !! e = Some c ->
  Moving.isActive c = false \/ Moving.isProcessing c = false ->
  Transform (run_ticks dts w) !! e = Transform w !! e /\
  position <$> Transform (run_ticks dts w) !! e = position <$> Transform w !! e /\
  TargetMovingComponent (run_ticks dts w) !! e = Some c.
Proof.
  intros Hc Hidle.
  assert (Hnow : moving_now c = false).
  { unfold moving_now. destruct Hidle as [-> | ->]; [done | apply andb_false_r]. }
  assert (Hview : view (run_ticks dts w) e = view w e).
  { revert w Hc. induction dts as [|dt dts IH]; intros w Hc; [done|].
    cbn. pose proof (tick_idle dt w e c Hc Hnow) as Hv.
    unfold run_ticks in IH. rewrite IH; [done|].
    unfold view in Hv. congruence. }
  unfold view in Hview. injection Hview as Hm Ht.
  rewrite Ht. split; [done|]. split; [done|]. congruence.
Qed.

Lemma idle_motion_witness :
  let w := world_idle_and_moving in
  let c := Moving.mk true false 2.4 0 [mkVector3 21 1 20; mkVector3 11 1 20]
             (mkVector3 0 0 0) in
  let dts := [0.016; 0.5; 0.033]%float in
  (TargetMovingComponent w !! 513%N = Some c /\
   (Moving.isActive c = false \/ Moving.isProcessing c = false)) /\
  Transform (run_ticks dts w) !! 513%N = Transform w !! 513%N /\
  position <$> Transform (run_ticks dts w) !! 513%N
  = position <$> Transform w !! 513%N /\
  TargetMovingComponent (run_ticks dts w) !! 513%N = Some c.
Proof.
  intros w c dts.
  split; [split; [reflexivity | right; reflexivity]|].
  exact (idle_motion dts w 513%N c eq_refl (or_intror eq_refl)).
Defined.

(** C6 (scale of motion).  On a tick in which no loop body throws, the
    system returns and every active, processing entity has its position
    advanced componentwise by [dt * speed * direction], the product the
    code computes, where [direction] is the cached direction after the
    possible arrival update of this tick; the scale and the speed are
    untouched.  In particular with [speed = 2.0], [dt = 0.5],
    [direction = (1, 0, 0)] and no arrival, the position changes by
    exactly [(1.0, 0, 0)]. *)
Theorem scale_of_motion (dt : float) (w : World) :
  tick_ready w ->
  exists w',
    targetProcessingMoving dt w = Ok tt w' /\
    forall e c t,
      TargetMovingComponent w !! e = Some c -> moving_now c = true ->
      Transform w !! e = Some t ->
      exists c' t',
        TargetMovingComponent w' !! e = Some c' /\
        Transform w' !! e = Some t' /\
        (c' = c \/ c' = on_arrival c (position t)) /\
        Moving.speed c' = Moving.speed c /\
        scale t' = scale t /\
        position t'
        = mkVector3
            (x (position t) + dt * Moving.speed c * x (Moving.normal c'))
            (y (position t) + dt * Moving.speed c * y (Moving.normal c'))
            (z (position t) + dt * Moving.speed c * z (Moving.normal c')) /\
        (forall wp,
           array_get (Moving.waypoints c) (Moving.indexCur c) = Some wp ->
           arrived (position t) wp = false ->
           Moving.speed c = 2%float -> dt = 0.5%float ->
           Moving.normal c = mkVector3 1 0 0 ->
           position t'
           = mkVector3 (x (position t) + 1) (y (position t) + 0)
                       (z (position t) + 0)).
Proof.
  intros Hready. destruct (tick_returns dt w Hready) as [w' Hrun].
  exists w'. split; [done|]. intros e c t Hc Hnow Ht.
  assert (He : ready w e) by (apply Hready, elem_of_dom; eauto).
  unfold ready in He. rewrite Hc in He. destruct (He Hnow) as [_ [wp Hwp]].
  destruct (tick_moving dt w e c t wp Hready Hc Hnow Ht Hwp)
    as (w'' & wp' & Hrun' & Hwp' & Hon & Hview).
  rewrite Hrun in Hrun'. injection Hrun' as <-.
  unfold view in Hview.
  destruct (arrived (position t) wp) eqn:Harr; injection Hview as Hc' Ht'.
  - eexists _, _. split; [exact Hc'|]. split; [exact Ht'|].
    split; [by right|]. rewrite Hon. cbn.
    split; [done|]. split; [done|]. split; [done|].
    intros wp0 Hwp0. rewrite Hwp in Hwp0. injection Hwp0 as <-. congruence.
  - eexists _, _. split; [exact Hc'|]. split; [exact Ht'|].
    split; [by left|]. cbn.
    split; [done|]. split; [done|]. split; [done|].
    intros _ _ _ -> -> ->. reflexivity.
Qed.

Lemma scale_of_motion_witness :
  tick_ready world_heading_x /\
  exists w',
    targetProcessingMoving 0.5 world_heading_x = Ok tt w' /\
    position <$> Transform w' !! 512%N = Some (mkVector3 12 1 20).
Proof.
  assert (Hr : tick_ready world_heading_x)
    by (apply tick_readyb_ready; reflexivity).
  split; [exact Hr|].
  destruct (scale_of_motion 0.5 world_heading_x Hr) as (w' & Hrun & Hall).
  exists w'. split; [exact Hrun|].
  destruct (Hall 512%N
              (Moving.mk true true 2 0 [wpA; wpB] (mkVector3 1 0 0))
              (mkTransform (mkVector3 11 1 20) (mkVector3 1 1 1))
              eq_refl eq_refl eq_refl)
    as (c' & t' & _ & Ht' & _ & _ & _ & _ & Hex).
  rewrite Ht'. cbn.
  rewrite (Hex wpA eq_refl eq_refl eq_refl eq_refl eq_refl).
  reflexivity.
Defined.

Lemma configure_spec e s wps processing w c0 :
  TargetMovingComponent w !! e = Some c0 ->
  exists w',
    configure e s wps processing w = Ok tt w' /\
    TargetMovingComponent w' !! e
    = Some (set_isProcessing processing (set_waypoints wps (set_speed s c0))) /\
    Transform w' = Transform w.
Proof.
  intros Hc. unfold configure, bind.
  rewrite (mutate_Moving _ _ _ _ Hc).
  erewrite mutate_Moving by (cbn; apply lookup_insert_eq).
  erewrite mutate_Moving by (cbn; apply lookup_insert_eq).
  eexists. split; [reflexivity|]. cbn. by rewrite lookup_insert_eq.
Qed.

(** An entity whose cached direction is the zero vector and whose
    position fails the arrival test keeps its component and its place
    through any run of ticks. *)
Lemma zero_direction_run (e : Entity) (c : Moving.Data) (wp p0 : Vector3)
    (dts : list float) :
  Moving.normal c = mkVector3 0 0 0 ->
  array_get (Moving.waypoints c) (Moving.indexCur c) = Some wp ->
  arrived p0 wp = false ->
  Forall (fun dt => is_finite (dt * Moving.speed c) = true) dts ->
  forall w t,
    view w e = (Some c, Some t) -> same_place (position t) p0 ->
    exists t',
      view (run_ticks dts w) e = (Some c, Some t') /\
      same_place (position t') p0 /\ scale t' = scale t.
Proof.
  intros Hn Hwp Hfar Hfin. induction Hfin as [|dt dts Hdt _ IH]; intros w t Hv Hp.
  - exists t. done.
  - cbn. destruct (tick_spec dt w) as (_ & Hstep & _).
    destruct (Hstep e) as [Hv1|Hv1].
    + apply (IH _ t); [congruence | done].
    + rewrite Hv in Hv1. unfold step_view in Hv1.
      destruct (moving_now c); [|by apply (IH _ t)].
      rewrite Hwp, (same_place_arrived _ _ _ Hp), Hfar, Hn in Hv1.
      destruct (IH _ _ Hv1) as (t' & Hv' & Hp' & Hs').
      * cbn. eapply same_place_trans; [by apply advance_zero | done].
      * exists t'. done.
Qed.

(** C10 as stated fails: it holds for no arbitrary [dt] and [speed].  A
    fresh moving target created at [(11, 1, 20)], given speed [1e308] and
    the demo's waypoints and set processing, fails the arrival test; one
    tick with [dt = 10] computes [dt * speed = infinity], adds
    [infinity * 0 = NaN] to every coordinate and leaves the target at
    [(NaN, NaN, NaN)]: it has left its position. *)
Lemma fresh_moving_target_never_moves_counterexample :
  ~ (forall (w : World) (p : Vector3) (s : float) (wps : list Vector3)
            (processing : bool) (wp : Vector3) (dts : list float),
       pool_wf w -> has_inactive MOVING w = false ->
       array_get wps 0 = Some wp -> arrived p wp = false ->
       exists e w1 w2,
         Create (mkTargetData MOVING p) w = Ok e w1 /\
         configure e s wps processing w1 = Ok tt w2 /\
         exists t, Transform (run_ticks dts w2) !! e = Some t /\
                   same_place (position t) p).
Proof.
  intros Hclaim.
  destruct (Hclaim world0 (mkVector3 11 1 20) 1e308%float [wpA; wpB] true wpA
              [10%float] pool_wf_world0 eq_refl eq_refl eq_refl)
    as (e & w1 & w2 & Hrun & Hconf & t & Ht & Hx & _).
  vm_compute in Hrun. injection Hrun as <- <-.
  vm_compute in Hconf. injection Hconf as <-.
  vm_compute in Ht. injection Ht as <-.
  cbn in Hx. destruct Hx as [Hx | (s1 & s2 & Hx & _)].
  - apply (f_equal Prim2SF) in Hx. vm_compute in Hx. discriminate Hx.
  - vm_compute in Hx. discriminate Hx.
Qed.

(** C10 (a fresh moving target never moves), amended.  [Create] allocates
    a moving target with the zero vector as cached direction; after the
    caller has set its speed and waypoints and set it processing, if its
    position fails the arrival test against its current waypoint then,
    through any run of ticks whose [dt * speed] is a finite number, the
    component is unchanged (the direction is still zero, as it is
    recomputed on arrival only) and the position keeps its numeric
    value. *)
Theorem fresh_moving_target_never_moves
    (w : World) (p : Vector3) (s : float) (wps : list Vector3)
    (processing : bool) (wp : Vector3) (dts : list float) :
  pool_wf w -> has_inactive MOVING w = false ->
  array_get wps 0 = Some wp -> arrived p wp = false ->
  Forall (fun dt => is_finite (dt * s) = true) dts ->
  exists e w1 w2,
    Create (mkTargetData MOVING p) w = Ok e w1 /\
    (exists c, TargetMovingComponent w1 !! e = Some c /\
               Moving.normal c = mkVector3 0 0 0) /\
    configure e s wps processing w1 = Ok tt w2 /\
    TargetMovingComponent (run_ticks dts w2) !! e
    = Some (Moving.mk true processing s 0 wps (mkVector3 0 0 0)) /\
    exists t, Transform (run_ticks dts w2) !! e = Some t /\
              same_place (position t) p.
Proof.
  intros Hwf Hno Hwp Hfar Hfin.
  destruct (Create_fresh MOVING p w Hwf Hno)
    as (w1 & Hrun & _ & _ & _ & _ & Ht & _ & Hrec & _).
  destruct (configure_spec (nextEntity w) s wps processing w1 _ Hrec)
    as (w2 & Hconf & Hc2 & Ht2).
  exists (nextEntity w), w1, w2. split; [done|].
  split; [eexists; split; [exact Hrec | done]|]. split; [done|].
  cbn in Hc2.
  destruct (zero_direction_run (nextEntity w)
              (Moving.mk true processing s 0 wps (mkVector3 0 0 0)) wp p dts
              eq_refl Hwp Hfar Hfin w2
              (mkTransform p (mkVector3 1 1 1)))
    as (t' & Hv & Hp & _).
  { unfold view. by rewrite Hc2, Ht2, Ht. }
  { apply same_place_refl. }
  unfold view in Hv. injection Hv as Hm Htr.
  split; [done|]. exists t'. done.
Qed.

Lemma fresh_moving_target_never_moves_witness :
  let p := mkVector3 11 1 20 in
  let dts := [0.016; 0.033; 1]%float in
  (pool_wf world0 /\ has_inactive MOVING world0 = false /\
   array_get [wpA; wpB] 0 = Some wpA /\ arrived p wpA = false /\
   Forall (fun dt => is_finite (dt * 1.2) = true) dts) /\
  exists e w1 w2,
    Create (mkTargetData MOVING p) world0 = Ok e w1 /\
    (exists c, TargetMovingComponent w1 !! e = Some c /\
               Moving.normal c = mkVector3 0 0 0) /\
    configure e 1.2 [wpA; wpB] true w1 = Ok tt w2 /\
    TargetMovingComponent (run_ticks dts w2) !! e
    = Some (Moving.mk true true 1.2 0 [wpA; wpB] (mkVector3 0 0 0)) /\
    exists t, Transform (run_ticks dts w2) !! e = Some t /\
              same_place (position t) p.
Proof.
  intros p dts.
  assert (Hfin : Forall (fun dt => is_finite (dt * 1.2) = true) dts)
    by (repeat constructor).
  split; [split; [exact pool_wf_world0 | repeat split; try reflexivity; exact Hfin]|].
  exact (fresh_moving_target_never_moves world0 p 1.2 [wpA; wpB] true wpA dts
           pool_wf_world0 eq_refl eq_refl eq_refl Hfin).
Defined.

(* ===================================================================== *)
(** ** Further properties: what a computation leaves alone *)
(* ===================================================================== *)

Section Keeps.
Context {X : Type} (obs : World -> X).

Lemma keeps_ret {A} (a : A) : keeps obs (ret a).
Proof. by intros w. Qed.

Lemma keeps_throw {A} : keeps obs (@throw A).
Proof. by intros w. Qed.

Lemma keeps_bind {A B} (m : M A) (k : A -> M B) :
  keeps obs m -> (forall a, keeps obs (k a)) -> keeps obs (bind m k).
Proof.
  intros Hm Hk w. rewrite state_of_bind. specialize (Hm w).
  destruct (m w) as [a w1|w1]; cbn in Hm; [|done].
  by rewrite Hk.
Qed.

Lemma keeps_get {V} (C : Component V) e : keeps obs (get C e).
Proof. intros w. unfold get. by destruct (store C w !! e). Qed.

Lemma keeps_field_of {A} (o : option A) : keeps obs (field_of o).
Proof. intros w. by destruct o. Qed.

Lemma keeps_for_each {A} (body : A -> M unit) (l : list A) :
  (forall v, keeps obs (body v)) -> keeps obs (for_each body l).
Proof.
  intros Hbody. induction l as [|v l IH]; [by intros w|].
  cbn. apply keeps_bind; [apply Hbody | intros _; apply IH].
Qed.

Lemma keeps_reading {A} (m : World -> M A) :
  (forall w0, keeps obs (m w0)) -> keeps obs (fun w => m w w).
Proof. intros Hm w. apply Hm. Qed.

End Keeps.

Lemma mutate_state {V} (C : Component V) e f w :
  state_of (mutate C e f w)
  = match store C w !! e with
    | Some v => set_store C (<[e := f v]> (store C w)) w
    | None => w
    end.
Proof. unfold mutate. by destruct (store C w !! e). Qed.

Lemma keeps_shape_mutate_Transform e f : keeps shape (mutate cTransform e f).
Proof.
  intros w. rewrite mutate_state. cbn.
  destruct (Transform w !! e) eqn:H; [|done].
  unfold shape; cbn. rewrite dom_insert_lookup_L; eauto.
Qed.

Lemma keeps_shape_mutate_Static e f : keeps shape (mutate cTargetStatic e f).
Proof.
  intros w. rewrite mutate_state. cbn.
  destruct (TargetStaticComponent w !! e) eqn:H; [|done].
  unfold shape; cbn. rewrite dom_insert_lookup_L; eauto.
Qed.

Lemma keeps_shape_mutate_Moving e f : keeps shape (mutate cTargetMoving e f).
Proof.
  intros w. rewrite mutate_state. cbn.
  destruct (TargetMovingComponent w !! e) eqn:H; [|done].
  unfold shape; cbn. rewrite dom_insert_lookup_L; eauto.
Qed.

Lemma keeps_shape_Enable e td : keeps shape (Enable e td).
Proof.
  unfold Enable. repeat (apply keeps_bind; [|intros _]).
  - destruct (type td);
      [apply keeps_shape_mutate_Static | apply keeps_shape_mutate_Moving].
  - apply keeps_shape_mutate_Transform.
  - apply keeps_shape_mutate_Transform.
  - apply keeps_ret.
Qed.

Lemma keeps_shape_Disable e ty : keeps shape (Disable e ty).
Proof.
  unfold Disable. apply keeps_bind; [|intros _; apply keeps_shape_mutate_Transform].
  destruct (ty =? 0); [apply keeps_shape_mutate_Static|].
  destruct (ty =? 1); [|apply keeps_ret].
  apply keeps_bind; [|intros _]; apply keeps_shape_mutate_Moving.
Qed.

Lemma keeps_shape_DisableAll : keeps shape DisableAll.
Proof.
  unfold DisableAll. apply keeps_bind; [|intros _];
    apply (keeps_reading shape (fun w0 => for_each _ _)); intros w0;
    apply keeps_for_each; intros e; apply keeps_shape_Disable.
Qed.

Lemma keeps_shape_configure e s l b : keeps shape (configure e s l b).
Proof.
  unfold configure.
  repeat (apply keeps_bind; [|intros _]); apply keeps_shape_mutate_Moving.
Qed.

Lemma keeps_shape_tick dt : keeps shape (targetProcessingMoving dt).
Proof. intros w. by destruct (tick_spec dt w) as [Hs _]. Qed.

Lemma keeps_shape_Create_scan td l : keeps shape (Create_scan td l).
Proof.
  induction l as [|e l IH]; [apply keeps_ret|].
  cbn. apply keeps_bind.
  - unfold get_isActive. destruct (type td);
      (apply keeps_bind; [apply keeps_get | intros c; apply keeps_ret]).
  - intros active. destruct (negb active); [|apply IH].
    apply keeps_bind; [apply keeps_shape_Enable | intros r; apply keeps_ret].
Qed.

(* ===================================================================== *)
(** ** Further properties: invariants of the pool *)
(* ===================================================================== *)

Lemma pool_sound_shape w w' : shape w' = shape w -> pool_sound w -> pool_sound w'.
Proof.
  unfold shape, pool_sound, engine_fresh.
  intros Hs. injection Hs as -> -> -> -> -> -> ->. done.
Qed.

Lemma pool_wf_fresh w : pool_wf w -> engine_fresh w.
Proof. by intros (_ & _ & H). Qed.

Lemma pool_wf_bound w e :
  pool_wf w -> e ∈ pooledStatic w ++ pooledMoving w -> (e < nextEntity w)%N.
Proof.
  intros (Hs & Hm & Hf) [He|He]%elem_of_app; apply Hf.
  - destruct (Hs e He). set_solver.
  - destruct (Hm e He). set_solver.
Qed.

Lemma engine_fresh_removeEntity e w :
  engine_fresh w -> engine_fresh (removeEntity e w).
Proof.
  unfold engine_fresh; cbn. intros Hf e' He'. apply Hf.
  rewrite !dom_delete_L in He'. set_solver.
Qed.

Lemma engine_fresh_round ty w :
  engine_fresh w -> engine_fresh (state_of (DestroyAll_round ty w)).
Proof.
  intros Hf. unfold DestroyAll_round, bind, pop.
  destruct (last (pooledObjects ty w)); cbn.
  - apply engine_fresh_removeEntity. by destruct ty.
  - by destruct ty.
Qed.

Lemma engine_fresh_loop ty w :
  engine_fresh w -> engine_fresh (DestroyAll_loop ty w).
Proof.
  funelim (DestroyAll_loop ty w); intros Hf; [|done].
  match goal with IH : engine_fresh _ -> _ |- _ => apply IH end.
  by apply engine_fresh_round.
Qed.

Lemma DestroyAll_pools w :
  pooledStatic (state_of (DestroyAll w)) = [] /\
  pooledMoving (state_of (DestroyAll w)) = [].
Proof.
  cbn. split.
  - change (pooledObjects STATIC (DestroyAll_loop MOVING (DestroyAll_loop STATIC w)) = []).
    rewrite DestroyAll_loop_other by done. apply DestroyAll_loop_empty.
  - apply (DestroyAll_loop_empty MOVING).
Qed.

Lemma engine_fresh_next w :
  engine_fresh w ->
  Transform w !! nextEntity w = None /\
  GltfContainer w !! nextEntity w = None /\
  TargetStaticComponent w !! nextEntity w = None /\
  TargetMovingComponent w !! nextEntity w = None.
Proof.
  intros Hf. repeat split; apply not_elem_of_dom; intros Hd;
    assert ((nextEntity w < nextEntity w)%N) by (apply Hf; set_solver); lia.
Qed.

Lemma NoDup_snoc_fresh (l k : list Entity) n :
  (forall e, e ∈ l ++ k -> (e < n)%N) -> NoDup (l ++ k) ->
  NoDup ((l ++ [n]) ++ k) /\ NoDup (l ++ (k ++ [n])).
Proof.
  intros Hb Hnd.
  assert (Hn : n ∉ l ++ k).
  { intros Hin. specialize (Hb n Hin). lia. }
  apply NoDup_app in Hnd as (Hl & Hlk & Hk).
  apply not_elem_of_app in Hn as [Hnl Hnk].
  split; apply NoDup_app.
  - split; [|split; [|done]].
    + apply NoDup_app. split; [done|]. split; [|apply NoDup_singleton].
      intros e He ->%list_elem_of_singleton. done.
    + intros e [He| ->%list_elem_of_singleton]%elem_of_app; [by apply Hlk | done].
  - split; [done|]. split.
    + intros e He [Hek| ->%list_elem_of_singleton]%elem_of_app;
        [by apply (Hlk e) | done].
    + apply NoDup_app. split; [done|]. split; [|apply NoDup_singleton].
      intros e He ->%list_elem_of_singleton. done.
Qed.

Lemma Create_sound td w : pool_sound w -> pool_sound (state_of (Create td w)).
Proof.
  intros Hs. unfold Create. rewrite state_of_bind.
  pose proof (keeps_shape_Create_scan td (pooledObjects (type td) w) w) as Hsh.
  destruct (Create_scan td (pooledObjects (type td) w) w) as [[e|] w1|w1];
    cbn in Hsh; [by apply (pool_sound_shape w) | | by apply (pool_sound_shape w)].
  apply (pool_sound_shape w w1 Hsh) in Hs. clear Hsh w.
  destruct Hs as (Hf & Hb & Hnd).
  destruct (engine_fresh_next w1 Hf) as (HnT & HnG & HnS & HnM).
  destruct (NoDup_snoc_fresh _ _ _ Hb Hnd) as [Hnd1 Hnd2].
  unfold bind, addEntity, create; cbn. rewrite HnT; cbn. rewrite HnG; cbn.
  assert (Hdom : forall (D1 D2 D3 D4 : gset N) e,
             (forall e', e' ∈ D1 ∪ D2 ∪ D3 ∪ D4 -> (e' < nextEntity w1)%N) ->
             e ∈ ({[nextEntity w1]} ∪ D1) ∪ ({[nextEntity w1]} ∪ D2)
                 ∪ ({[nextEntity w1]} ∪ D3) ∪ D4
             \/ e ∈ ({[nextEntity w1]} ∪ D1) ∪ ({[nextEntity w1]} ∪ D2)
                 ∪ D3 ∪ ({[nextEntity w1]} ∪ D4) ->
             (e < N.succ (nextEntity w1))%N).
  { intros D1 D2 D3 D4 e HD He.
    destruct (decide (e = nextEntity w1)) as [->|Hne]; [lia|].
    assert ((e < nextEntity w1)%N); [apply HD; set_solver | lia]. }
  destruct (type td); cbn.
  - rewrite HnS; cbn. split; [|split]; cbn.
    + unfold engine_fresh; cbn. intros e He. rewrite !dom_insert_L in He.
      eapply Hdom; [exact Hf|]. by left.
    + intros e He.
      assert (e = nextEntity w1 \/ e ∈ pooledStatic w1 ++ pooledMoving w1)
        as [->|He']; [set_solver | lia |].
      specialize (Hb e He'). lia.
    + done.
  - rewrite HnM; cbn. split; [|split]; cbn.
    + unfold engine_fresh; cbn. intros e He. rewrite !dom_insert_L in He.
      eapply Hdom; [exact Hf|]. by right.
    + intros e He.
      assert (e = nextEntity w1 \/ e ∈ pooledStatic w1 ++ pooledMoving w1)
        as [->|He']; [set_solver | lia |].
      specialize (Hb e He'). lia.
    + done.
Qed.

Lemma Destroy_sound e w : pool_sound w -> pool_sound (state_of (Destroy e w)).
Proof.
  intros (Hf & Hb & Hnd). split; [|done]. by apply engine_fresh_removeEntity.
Qed.

Lemma DestroyAll_fresh w : engine_fresh w -> pool_wf (state_of (DestroyAll w)).
Proof.
  intros Hf. destruct (DestroyAll_pools w) as [Hs Hm].
  split; [|split].
  - rewrite Hs. intros e He. inversion He.
  - rewrite Hm. intros e He. inversion He.
  - cbn. by apply engine_fresh_loop, engine_fresh_loop.
Qed.

Lemma DestroyAll_sound w : pool_sound w -> pool_sound (state_of (DestroyAll w)).
Proof.
  intros (Hf & _ & _). destruct (DestroyAll_pools w) as [Hs Hm].
  split; [|split].
  - cbn. by apply engine_fresh_loop, engine_fresh_loop.
  - rewrite Hs, Hm. intros e He. inversion He.
  - rewrite Hs, Hm. constructor.
Qed.

Lemma run_call_sound c w : pool_sound w -> pool_sound (run_call c w).
Proof.
  intros Hs. destruct c; cbn [run_call].
  - by apply Create_sound.
  - apply (pool_sound_shape w); [apply keeps_shape_Enable | done].
  - apply (pool_sound_shape w); [apply keeps_shape_Disable | done].
  - apply (pool_sound_shape w); [apply keeps_shape_DisableAll | done].
  - by apply Destroy_sound.
  - by apply DestroyAll_sound.
  - apply (pool_sound_shape w); [apply keeps_shape_tick | done].
  - apply (pool_sound_shape w); [apply keeps_shape_configure | done].
Qed.

Lemma run_call_wf c w : is_Destroy c = false -> pool_wf w -> pool_wf (run_call c w).
Proof.
  intros Hc Hwf. destruct c; cbn [run_call]; try done.
  - destruct targetData as [ty p]. by apply Create_wf.
  - apply (pool_wf_shape w); [apply keeps_shape_Enable | done].
  - apply (pool_wf_shape w); [apply keeps_shape_Disable | done].
  - apply (pool_wf_shape w); [apply keeps_shape_DisableAll | done].
  - by apply DestroyAll_fresh, pool_wf_fresh.
  - apply (pool_wf_shape w); [apply keeps_shape_tick | done].
  - apply (pool_wf_shape w); [apply keeps_shape_configure | done].
Qed.

Lemma pool_sound_world0 : pool_sound world0.
Proof.
  split; [|split]; cbn.
  - apply pool_wf_fresh, pool_wf_world0.
  - intros e He. inversion He.
  - constructor.
Qed.

(** X1 (invariant of every sequence of calls).  Starting from the empty
    scene, after any sequence of calls of [Create], [Enable], [Disable],
    [DisableAll], [Destroy], [DestroyAll], of the movement system and of
    the caller's customisation, returning or throwing, no handle is
    pooled twice, in one bucket or across the two, every pooled handle
    was handed out by the engine, and the engine's next handle is unused.
    If no call in the sequence is a bare [Destroy], every pooled handle
    moreover carries the state record of its bucket's kind and a
    transform. *)
Theorem calls_keep_pool_sound (cs : list call) :
  pool_sound (run_calls cs world0) /\
  (forallb (fun c => negb (is_Destroy c)) cs = true ->
   pool_wf (run_calls cs world0)).
Proof.
  unfold run_calls.
  assert (H : forall w, pool_sound w ->
            pool_sound (foldl (fun w c => run_call c w) w cs) /\
            (forallb (fun c => negb (is_Destroy c)) cs = true -> pool_wf w ->
             pool_wf (foldl (fun w c => run_call c w) w cs))).
  { induction cs as [|c cs IH]; intros w Hs; [done|].
    cbn. destruct (IH (run_call c w) (run_call_sound c w Hs)) as [IH1 IH2].
    split; [done|].
    intros [Hc Hcs]%andb_true_iff Hwf. apply IH2; [done|].
    apply run_call_wf; [|done]. by destruct (is_Destroy c). }
  destruct (H world0 pool_sound_world0) as [H1 H2].
  split; [done|]. intros Hcs. apply H2; [done | apply pool_wf_world0].
Qed.

Lemma calls_keep_pool_sound_witness :
  let cs := [CallCreate (mkTargetData STATIC (mkVector3 13.5 1 18));
             CallCreate (mkTargetData MOVING (mkVector3 11 1 20));
             CallConfigure 513%N 1.2 [wpA; wpB] true;
             CallTick 0.5; CallDisableAll;
             CallCreate (mkTargetData MOVING (mkVector3 21 1 24))] in
  forallb (fun c => negb (is_Destroy c)) cs = true /\
  pool_sound (run_calls cs world0) /\ pool_wf (run_calls cs world0).
Proof.
  intros cs. split; [reflexivity|].
  split; [exact (proj1 (calls_keep_pool_sound cs))|].
  exact (proj2 (calls_keep_pool_sound cs) eq_refl).
Defined.

(* ===================================================================== *)
(** ** Further properties: when the movement system throws *)
(* ===================================================================== *)

Lemma body_returned_ready dt e w :
  returned (MovingTimer_body dt e w) = true -> ready w e.
Proof.
  unfold ready, MovingTimer_body, bind, get, ret, throw, field_of; cbn.
  destruct (TargetMovingComponent w !! e) as [c|] eqn:Hc; [|done]. cbn.
  rewrite moving_now_false.
  destruct (moving_now c) eqn:Hnow; cbn; [|done].
  destruct (Transform w !! e) as [t|]; [|done]. cbn.
  destruct (array_get (Moving.waypoints c) (Moving.indexCur c)); [|done].
  eauto.
Qed.

Lemma for_each_returned_ready dt (es : list Entity) :
  forall w, NoDup es ->
  returned (for_each (MovingTimer_body dt) es w) = true ->
  forall e, e ∈ es -> ready w e.
Proof.
  induction es as [|e0 es IH]; intros w Hnd Hret e He; [inversion He|].
  apply NoDup_cons in Hnd as [Hnotin Hnd].
  cbn in Hret. unfold bind in Hret.
  destruct (body_spec dt e0 w) as (_ & _ & Hfr).
  destruct (MovingTimer_body dt e0 w) as [[] w1|w1] eqn:Hbody; [|done].
  cbn in Hfr.
  apply elem_of_cons in He as [->|He].
  - apply (body_returned_ready dt). by rewrite Hbody.
  - apply (ready_view w1).
    + symmetry. apply Hfr. by intros ->.
    + by apply (IH w1).
Qed.

(** X2 (when a tick throws).  A call of the movement system returns if
    and only if every entity that carries the moving component and is
    active and processing has a transform and a current waypoint
    ([0 <= indexCur < waypoints.length]); otherwise it throws. *)
Theorem tick_returns_iff_ready (dt : float) (w : World) :
  returned (targetProcessingMoving dt w) = true <-> tick_ready w.
Proof.
  split.
  - intros Hret e [c Hc]%elem_of_dom.
    unfold targetProcessingMoving, getEntitiesWith in Hret.
    cbn [store cTargetMoving] in Hret.
    apply (for_each_returned_ready dt _ w (NoDup_fst_map_to_list _) Hret).
    apply list_elem_of_fmap. exists (e, c). by rewrite elem_of_map_to_list.
  - intros Hr. destruct (tick_returns dt w Hr) as [w' ->]. done.
Qed.

Lemma step_view_ready dt w w' e :
  ready w e -> view w' e = step_view dt (view w e) -> ready w' e.
Proof.
  unfold ready, view. intros Hr Hv.
  destruct (TargetMovingComponent w !! e) as [c|] eqn:Hc; [|done].
  unfold step_view in Hv.
  destruct (Transform w !! e) as [t|] eqn:Ht.
  2:{ injection Hv as -> ->. done. }
  destruct (moving_now c) eqn:Hnow.
  2:{ injection Hv as -> ->. by rewrite Hnow. }
  destruct Hr as [_ Hwp]; [done|]. pose proof Hwp as Hwp0.
  destruct Hwp as [wp Hwp]. rewrite Hwp in Hv.
  destruct (arrived (position t) wp).
  - apply array_get_Some, next_index_range in Hwp0.
    pose proof Hwp0 as Hrange. apply array_get_Some in Hwp0 as [wp' Hwp'].
    unfold on_arrival in Hv. rewrite Hwp' in Hv.
    injection Hv as -> ->. cbn. intros _. split; [eauto|].
    by apply array_get_Some.
  - injection Hv as -> ->. intros _. split; eauto.
Qed.

Lemma tick_keeps_ready dt w :
  tick_ready w -> tick_ready (state_of (targetProcessingMoving dt w)).
Proof.
  intros Hr. destruct (tick_spec dt w) as (Hsh & _ & Hall).
  destruct (Hall Hr) as [_ Hstep].
  intros e He. apply (step_view_ready dt w); [|apply Hstep].
  apply Hr. unfold shape in Hsh. injection Hsh as _ _ _ _ Hd _ _.
  by rewrite <- Hd.
Qed.

(** X3 (the system never starts to throw).  If a tick would return in
    the world [w], then every tick of any run of ticks from [w] returns:
    the arrival update keeps [indexCur] an index of [waypoints]. *)
Theorem ticks_never_start_throwing (w : World) (dts : list float) (dt : float) :
  tick_ready w ->
  tick_ready (run_ticks dts w) /\
  exists w', targetProcessingMoving dt (run_ticks dts w) = Ok tt w'.
Proof.
  intros Hr.
  assert (H : tick_ready (run_ticks dts w)).
  { revert w Hr. induction dts as [|dt0 dts IH]; intros w Hr; [done|].
    cbn. apply IH. by apply tick_keeps_ready. }
  split; [done|]. by apply tick_returns.
Qed.

Lemma ticks_never_start_throwing_witness :
  tick_ready (world_one_moving wpB 1) /\
  tick_ready (run_ticks [0.5; 0.016; 2]%float (world_one_moving wpB 1)) /\
  exists w', targetProcessingMoving 0.25
               (run_ticks [0.5; 0.016; 2]%float (world_one_moving wpB 1))
             = Ok tt w'.
Proof.
  assert (Hr : tick_ready (world_one_moving wpB 1))
    by (apply tick_readyb_ready; reflexivity).
  split; [exact Hr|].
  exact (ticks_never_start_throwing (world_one_moving wpB 1)
           [0.5; 0.016; 2]%float 0.25 Hr).
Defined.

(* ===================================================================== *)
(** ** Further properties: what the movement system leaves alone *)
(* ===================================================================== *)

Lemma keeps_beyond_mutate_Moving e f : keeps beyond_movement (mutate cTargetMoving e f).
Proof.
  intros w. rewrite mutate_state. cbn.
  by destruct (TargetMovingComponent w !! e).
Qed.

Lemma keeps_beyond_mutate_Transform e f : keeps beyond_movement (mutate cTransform e f).
Proof.
  intros w. rewrite mutate_state. cbn. by destruct (Transform w !! e).
Qed.

Lemma keeps_beyond_body dt e : keeps beyond_movement (MovingTimer_body dt e).
Proof.
  unfold MovingTimer_body.
  apply keeps_bind; [apply keeps_get | intros c].
  destruct (_ || _); [apply keeps_ret|].
  apply keeps_bind; [apply keeps_get | intros t].
  apply keeps_bind; [apply keeps_field_of | intros wp].
  apply keeps_bind; [|intros n; apply keeps_beyond_mutate_Transform].
  destruct (arrived _ _); [|apply keeps_ret].
  apply keeps_bind; [apply keeps_beyond_mutate_Moving | intros _].
  apply keeps_bind; [apply keeps_field_of | intros wp'].
  apply keeps_bind; [apply keeps_beyond_mutate_Moving | intros _].
  apply keeps_ret.
Qed.

Lemma step_view_settings dt v :
  settings <$> (step_view dt v).1 = settings <$> v.1 /\
  scale <$> (step_view dt v).2 = scale <$> v.2 /\
  (v.1 = None -> step_view dt v = v).
Proof.
  destruct v as [[c|] [t|]]; cbn; try done.
  destruct (moving_now c); [|done].
  destruct (array_get (Moving.waypoints c) (Moving.indexCur c)); [|done].
  destruct (arrived (position t) v); [|done].
  unfold on_arrival.
  by destruct (array_get (Moving.waypoints c)
                 (next_index (Moving.indexCur c) (length (Moving.waypoints c)))).
Qed.

(** X4 (what the movement system never changes).  A tick, returning or
    throwing, leaves the pool, the engine's entity counter, every static
    component and every model attachment as they are; of a moving
    component it changes at most [indexCur] and [normal], never
    [isActive], [isProcessing], [speed] or [waypoints]; of a transform it
    changes at most the position, never the scale; and the transform of
    an entity without the moving component is untouched. *)
Theorem movement_changes_path_state_only (dt : float) (w : World) (e : Entity) :
  let w' := state_of (targetProcessingMoving dt w) in
  beyond_movement w' = beyond_movement w /\
  settings <$> TargetMovingComponent w' !! e
  = settings <$> TargetMovingComponent w !! e /\
  scale <$> Transform w' !! e = scale <$> Transform w !! e /\
  (TargetMovingComponent w !! e = None -> Transform w' !! e = Transform w !! e).
Proof.
  cbn zeta. split.
  - unfold targetProcessingMoving.
    apply (keeps_reading beyond_movement (fun w0 => for_each _ _)). intros w0.
    apply keeps_for_each. intros e0. apply keeps_beyond_body.
  - destruct (tick_spec dt w) as (_ & Hstep & _).
    destruct (step_view_settings dt (view w e)) as (Hset & Hsc & Hnone).
    destruct (Hstep e) as [Hv|Hv]; unfold view in *; cbn in *.
    + injection Hv as -> ->. done.
    + rewrite <- Hv in Hset, Hsc, Hnone. cbn in *.
      split; [done|]. split; [done|].
      intros Hc. specialize (Hnone Hc). congruence.
Qed.

(* ===================================================================== *)
(** ** Further properties: a waypoint under the target *)
(* ===================================================================== *)

Lemma sub_self a : is_finite a = true -> (a - a)%float = 0%float.
Proof.
  intros Hfin. apply Prim2SF_inj. rewrite sub_spec.
  unfold SF64sub, SFsub.
  destruct (finite_SF a Hfin) as [[s ->] | (s & m & e & ->)].
  - by destruct s.
  - cbn zeta. rewrite Z.sub_diag. reflexivity.
Qed.

Lemma mul_nan_r a : (a * nan)%float = nan.
Proof.
  apply Prim2SF_inj. rewrite mul_spec.
  change (Prim2SF nan) with S754_nan.
  unfold SF64mul, SFmul. by destruct (Prim2SF a).
Qed.

Lemma add_nan_r a : (a + nan)%float = nan.
Proof.
  apply Prim2SF_inj. rewrite add_spec.
  change (Prim2SF nan) with S754_nan.
  unfold SF64add, SFadd. by destruct (Prim2SF a).
Qed.

Lemma add_nan_l a : (nan + a)%float = nan.
Proof.
  apply Prim2SF_inj. rewrite add_spec.
  change (Prim2SF nan) with S754_nan. reflexivity.
Qed.

Lemma nan_test a eps : (abs (nan - a) <? eps)%float = false.
Proof.
  rewrite ltb_spec, abs_spec, sub_spec.
  change (Prim2SF nan) with S754_nan. reflexivity.
Qed.

Lemma unit_towards_self p :
  is_finite (x p) = true -> is_finite (y p) = true -> is_finite (z p) = true ->
  unit_towards p p = nan3.
Proof.
  intros Hx Hy Hz. unfold unit_towards. cbn.
  rewrite (sub_self _ Hx), (sub_self _ Hy), (sub_self _ Hz). reflexivity.
Qed.

Lemma advance_nan dt speed pos : advance dt speed nan3 pos = nan3.
Proof. unfold advance, nan3; cbn. by rewrite !mul_nan_r, !add_nan_r. Qed.

(** X5 (a waypoint under the target).  On a tick in which no loop body
    throws, if an active, processing entity passes the arrival test and
    its position, with finite coordinates, is exactly the next waypoint
    (as with a path of one waypoint and the target placed on it), the
    division by the zero length makes the recomputed direction
    [(NaN, NaN, NaN)], and the same tick moves the position to
    [(NaN, NaN, NaN)], whatever [dt] and [speed] are. *)
Theorem waypoint_under_target_gives_nan
    (dt : float) (w : World) (e : Entity) (c : Moving.Data)
    (t : TransformData) (wp : Vector3) :
  tick_ready w ->
  TargetMovingComponent w !! e = Some c -> moving_now c = true ->
  Transform w !! e = Some t ->
  array_get (Moving.waypoints c) (Moving.indexCur c) = Some wp ->
  arrived (position t) wp = true ->
  array_get (Moving.waypoints c)
    (next_index (Moving.indexCur c) (length (Moving.waypoints c)))
  = Some (position t) ->
  is_finite (x (position t)) = true -> is_finite (y (position t)) = true ->
  is_finite (z (position t)) = true ->
  exists w' c' t',
    targetProcessingMoving dt w = Ok tt w' /\
    TargetMovingComponent w' !! e = Some c' /\ Moving.normal c' = nan3 /\
    Transform w' !! e = Some t' /\ position t' = nan3.
Proof.
  intros Hready Hc Hnow Ht Hwp Harr Hnext Hx Hy Hz.
  destruct (tick_moving dt w e c t wp Hready Hc Hnow Ht Hwp)
    as (w' & wp' & Hrun & Hwp' & Hon & Hview).
  rewrite Hnext in Hwp'. injection Hwp' as <-.
  rewrite Harr, Hon, (unit_towards_self _ Hx Hy Hz), advance_nan in Hview.
  unfold view in Hview. injection Hview as Hc' Ht'.
  eexists w', _, _. split; [done|]. split; [exact Hc'|]. split; [done|].
  split; [exact Ht'|]. done.
Qed.

Lemma waypoint_under_target_gives_nan_witness :
  let w := world_on_waypoint in
  let c := Moving.mk true true 1.2 0 [wpA] (mkVector3 0 0 0) in
  let t := mkTransform wpA (mkVector3 1 1 1) in
  (tick_ready w /\
   TargetMovingComponent w !! 512%N = Some c /\ moving_now c = true /\
   Transform w !! 512%N = Some t /\
   array_get (Moving.waypoints c) (Moving.indexCur c) = Some wpA /\
   arrived (position t) wpA = true /\
   array_get (Moving.waypoints c)
     (next_index (Moving.indexCur c) (length (Moving.waypoints c)))
   = Some (position t) /\
   is_finite (x (position t)) = true /\ is_finite (y (position t)) = true /\
   is_finite (z (position t)) = true) /\
  exists w' c' t',
    targetProcessingMoving 0.016 w = Ok tt w' /\
    TargetMovingComponent w' !! 512%N = Some c' /\ Moving.normal c' = nan3 /\
    Transform w' !! 512%N = Some t' /\ position t' = nan3.
Proof.
  intros w c t.
  assert (Hr : tick_ready w) by (apply tick_readyb_ready; reflexivity).
  split; [repeat split; try exact Hr; reflexivity|].
  exact (waypoint_under_target_gives_nan 0.016 w 512%N c t wpA Hr
           eq_refl eq_refl eq_refl eq_refl eq_refl eq_refl eq_refl eq_refl eq_refl).
Defined.

(** X6 (a target at NaN is lost).  Once a coordinate of a moving
    target's position is NaN, no run of ticks brings it back: the arrival
    test fails on every tick, so the component, its index and direction
    included, never changes again, and the coordinate stays NaN. *)
Theorem nan_position_is_never_left
    (w : World) (e : Entity) (c : Moving.Data) (t : TransformData)
    (dts : list float) :
  TargetMovingComponent w !! e = Some c -> Transform w !! e = Some t ->
  x (position t) = nan \/ y (position t) = nan \/ z (position t) = nan ->
  TargetMovingComponent (run_ticks dts w) !! e = Some c /\
  exists t',
    Transform (run_ticks dts w) !! e = Some t' /\
    (x (position t) = nan -> x (position t') = nan) /\
    (y (position t) = nan -> y (position t') = nan) /\
    (z (position t) = nan -> z (position t') = nan).
Proof.
  intros Hc Ht Hnan.
  assert (H : forall w t', view w e = (Some c, Some t') ->
            ((x (position t) = nan -> x (position t') = nan) /\
             (y (position t) = nan -> y (position t') = nan) /\
             (z (position t) = nan -> z (position t') = nan)) ->
            exists t'', view (run_ticks dts w) e = (Some c, Some t'') /\
              (x (position t) = nan -> x (position t'') = nan) /\
              (y (position t) = nan -> y (position t'') = nan) /\
              (z (position t) = nan -> z (position t'') = nan)).
  { clear w Hc Ht. induction dts as [|dt dts IH]; intros w t' Hv Hkeep.
    - exists t'. done.
    - cbn. destruct (tick_spec dt w) as (_ & Hstep & _).
      destruct (Hstep e) as [Hv1|Hv1]; [apply (IH _ t'); congruence|].
      rewrite Hv in Hv1. unfold step_view in Hv1.
      destruct (moving_now c); [|by apply (IH _ t')].
      destruct (array_get (Moving.waypoints c) (Moving.indexCur c)) as [wp|];
        [|by apply (IH _ t')].
      assert (Hfar : arrived (position t') wp = false).
      { destruct Hkeep as (Kx & Ky & Kz). unfold arrived.
        destruct Hnan as [Hn|[Hn|Hn]].
        - by rewrite (Kx Hn), nan_test.
        - by rewrite (Ky Hn), nan_test, andb_false_r.
        - by rewrite (Kz Hn), nan_test, andb_false_r. }
      rewrite Hfar in Hv1. apply (IH _ _ Hv1).
      destruct Hkeep as (Kx & Ky & Kz). unfold advance; cbn.
      repeat split; intros Hn;
        [rewrite (Kx Hn) | rewrite (Ky Hn) | rewrite (Kz Hn)]; apply add_nan_l. }
  destruct (H w t) as (t'' & Hv & Hk); [by unfold view; rewrite Hc, Ht | done |].
  unfold view in Hv. injection Hv as Hc' Ht'.
  split; [done|]. exists t''. done.
Qed.

Lemma nan_position_is_never_left_witness :
  let w := state_of (targetProcessingMoving 0.016 world_on_waypoint) in
  let c := Moving.mk true true 1.2 0 [wpA] nan3 in
  let t := mkTransform nan3 (mkVector3 1 1 1) in
  let dts := [0.016; 0.5; 1]%float in
  (TargetMovingComponent w !! 512%N = Some c /\ Transform w !! 512%N = Some t /\
   (x (position t) = nan \/ y (position t) = nan \/ z (position t) = nan)) /\
  TargetMovingComponent (run_ticks dts w) !! 512%N = Some c /\
  exists t',
    Transform (run_ticks dts w) !! 512%N = Some t' /\
    (x (position t) = nan -> x (position t') = nan) /\
    (y (position t) = nan -> y (position t') = nan) /\
    (z (position t) = nan -> z (position t') = nan).
Proof.
  intros w c t dts.
  split; [split; [reflexivity | split; [reflexivity | left; reflexivity]]|].
  exact (nan_position_is_never_left w 512%N c t dts eq_refl eq_refl
           (or_introl eq_refl)).
Defined.

(* ===================================================================== *)
(** ** Further properties: [Enable] and [Disable] *)
(* ===================================================================== *)

(** Runs the assignments of a straight-line computation on stores whose
    entries are known. *)
Ltac run_stores :=
  repeat (unfold set_Transform, set_TargetStaticComponent,
            set_TargetMovingComponent, set_scale, set_position,
            set_isActive, set_isProcessing; cbn;
          rewrite ?lookup_insert_eq, ?insert_insert_eq; cbn).

(** X7 ([Disable] twice).  A call of [Disable] that returns can be
    repeated: the second call returns as well and changes nothing. *)
Theorem Disable_twice (entity : Entity) (type : Z) (w w1 : World) :
  Disable entity type w = Ok tt w1 -> Disable entity type w1 = Ok tt w1.
Proof.
  unfold Disable, bind, mutate, ret; cbn.
  destruct (type =? 0).
  - destruct (TargetStaticComponent w !! entity) as [c|] eqn:Hc; [|done]. cbn.
    destruct (Transform w !! entity) as [t|] eqn:Ht; [|done].
    intros [= <-]. by run_stores.
  - destruct (type =? 1).
    + destruct (TargetMovingComponent w !! entity) as [c|] eqn:Hc; [|done].
      run_stores.
      destruct (Transform w !! entity) as [t|] eqn:Ht; [|done].
      intros [= <-]. by run_stores.
    + destruct (Transform w !! entity) as [t|] eqn:Ht; [|done].
      intros [= <-]. by run_stores.
Qed.

Lemma Disable_twice_witness :
  exists w1,
    Disable 513%N 1 world_two_kinds = Ok tt w1 /\ Disable 513%N 1 w1 = Ok tt w1.
Proof.
  eexists. split; [reflexivity|].
  exact (Disable_twice 513%N 1 world_two_kinds _ eq_refl).
Defined.

(** X8 ([Enable] twice).  A call of [Enable] that returns can be repeated
    with the same data: the second call returns the same entity and
    changes nothing, so enabling an entity that is already active at the
    same position is harmless. *)
Theorem Enable_twice (entity e' : Entity) (targetData : TargetDataObject)
    (w w1 : World) :
  Enable entity targetData w = Ok e' w1 ->
  e' = entity /\ Enable entity targetData w1 = Ok entity w1.
Proof.
  unfold Enable, bind, mutate, ret; cbn.
  destruct (type targetData).
  - destruct (TargetStaticComponent w !! entity) as [c|] eqn:Hc; [|done]. cbn.
    destruct (Transform w !! entity) as [t|] eqn:Ht; [|done]. run_stores.
    intros [= <- <-]. split; [done|]. by run_stores.
  - destruct (TargetMovingComponent w !! entity) as [c|] eqn:Hc; [|done]. cbn.
    destruct (Transform w !! entity) as [t|] eqn:Ht; [|done]. run_stores.
    intros [= <- <-]. split; [done|]. by run_stores.
Qed.

Lemma Enable_twice_witness :
  exists w1,
    Enable 513%N (mkTargetData MOVING wpA) world_two_kinds = Ok 513%N w1 /\
    513%N = 513%N /\
    Enable 513%N (mkTargetData MOVING wpA) w1 = Ok 513%N w1.
Proof.
  eexists. split; [reflexivity|].
  exact (Enable_twice 513%N 513%N (mkTargetData MOVING wpA) world_two_kinds _ eq_refl).
Defined.

Lemma run_ticks_idle dts w e c :
  TargetMovingComponent w !! e = Some c -> moving_now c = false ->
  view (run_ticks dts w) e = view w e.
Proof.
  intros Hc Hnow. revert w Hc.
  induction dts as [|dt dts IH]; intros w Hc; [done|].
  cbn. pose proof (tick_idle dt w e c Hc Hnow) as Hv.
  unfold run_ticks in IH. rewrite IH; [done|].
  unfold view in Hv. congruence.
Qed.

(** X9 (a re-enabled moving target stands still).  [Disable] followed by
    [Enable] of a moving target leaves it active at the new position with
    scale [(1,1,1)], but not processing: [Enable] does not set
    [isProcessing] back, and the speed, waypoints, index and direction of
    the earlier use are kept, not reset to the defaults of a fresh
    target. *)
Theorem reenabled_moving_target (entity : Entity) (p : Vector3) (w : World)
    (c : Moving.Data) (t : TransformData) :
  TargetMovingComponent w !! entity = Some c ->
  Transform w !! entity = Some t ->
  exists w1 w2,
    Disable entity 1 w = Ok tt w1 /\
    Enable entity (mkTargetData MOVING p) w1 = Ok entity w2 /\
    TargetMovingComponent w2 !! entity
    = Some (Moving.mk true false (Moving.speed c) (Moving.indexCur c)
              (Moving.waypoints c) (Moving.normal c)) /\
    Transform w2 !! entity = Some (mkTransform p (mkVector3 1 1 1)) /\
    forall dts, Transform (run_ticks dts w2) !! entity
                = Some (mkTransform p (mkVector3 1 1 1)).
Proof.
  intros Hc Ht.
  eexists _, _. split; [by apply (Disable_moving entity w c t)|].
  unfold Enable, bind; cbn.
  erewrite mutate_Moving by (cbn; apply lookup_insert_eq).
  erewrite mutate_Transform by (cbn; apply lookup_insert_eq).
  erewrite mutate_Transform by (cbn; apply lookup_insert_eq).
  split; [reflexivity|]. cbn. rewrite !lookup_insert_eq, vector3_eta.
  split; [done|]. split; [done|].
  intros dts.
  match goal with |- Transform (run_ticks dts ?w2) !! _ = _ =>
    pose proof (run_ticks_idle dts w2 entity
                  (Moving.mk true false (Moving.speed c) (Moving.indexCur c)
                     (Moving.waypoints c) (Moving.normal c))) as Hsame
  end.
  unfold view in Hsame. cbn in Hsame. rewrite !lookup_insert_eq in Hsame.
  specialize (Hsame eq_refl eq_refl). by injection Hsame.
Qed.

Lemma reenabled_moving_target_witness :
  let w := world_one_moving wpA 0 in
  (TargetMovingComponent w !! 512%N
   = Some (Moving.mk true true 1.2 0 [wpA; wpB] (mkVector3 0 0 0)) /\
   Transform w !! 512%N = Some (mkTransform wpA (mkVector3 1 1 1))) /\
  exists w1 w2,
    Disable 512%N 1 w = Ok tt w1 /\
    Enable 512%N (mkTargetData MOVING wpB) w1 = Ok 512%N w2 /\
    TargetMovingComponent w2 !! 512%N
    = Some (Moving.mk true false 1.2 0 [wpA; wpB] (mkVector3 0 0 0)) /\
    Transform w2 !! 512%N = Some (mkTransform wpB (mkVector3 1 1 1)) /\
    forall dts, Transform (run_ticks dts w2) !! 512%N
                = Some (mkTransform wpB (mkVector3 1 1 1)).
Proof.
  intros w. split; [split; reflexivity|].
  exact (reenabled_moving_target 512%N wpB w
           (Moving.mk true true 1.2 0 [wpA; wpB] (mkVector3 0 0 0))
           (mkTransform wpA (mkVector3 1 1 1)) eq_refl eq_refl).
Defined.

(** X10 ([Disable] on an entity that lacks something).  [Disable] throws
    when the entity does not carry the state record of the given kind,
    and then changes nothing; when the record is there but the transform
    is not, it throws after it has switched the record off, and that
    assignment stays. *)
Theorem Disable_throws (ty : TARGET_TYPE) (entity : Entity) (w : World) :
  active_of ty w entity = None \/ Transform w !! entity = None ->
  let r := Disable entity (TARGET_TYPE_value ty) w in
  returned r = false /\
  (active_of ty w entity = None -> state_of r = w) /\
  (is_Some (active_of ty w entity) -> active_of ty (state_of r) entity = Some false).
Proof.
  intros Hmiss. unfold Disable, bind, mutate, ret. destruct ty; cbn in *.
  - destruct (TargetStaticComponent w !! entity) as [c|] eqn:Hc; cbn in *.
    + destruct Hmiss as [?|Ht]; [done|]. rewrite Ht. cbn.
      rewrite lookup_insert_eq. done.
    + split; [done|]. split; [done|]. by intros [? ?].
  - destruct (TargetMovingComponent w !! entity) as [c|] eqn:Hc; cbn in *.
    + rewrite lookup_insert_eq; cbn.
      destruct Hmiss as [?|Ht]; [done|]. rewrite Ht. cbn.
      rewrite lookup_insert_eq. done.
    + split; [done|]. split; [done|]. by intros [? ?].
Qed.

Lemma Disable_throws_witness :
  (active_of STATIC world_dangling 512%N = None \/
   Transform world_dangling !! 512%N = None) /\
  returned (Disable 512%N (TARGET_TYPE_value STATIC) world_dangling) = false /\
  state_of (Disable 512%N (TARGET_TYPE_value STATIC) world_dangling)
  = world_dangling.
Proof.
  assert (Hnone : active_of STATIC world_dangling 512%N = None) by reflexivity.
  split; [by left|].
  destruct (Disable_throws STATIC 512%N world_dangling (or_introl Hnone))
    as (Hret & Hsame & _).
  split; [exact Hret | exact (Hsame Hnone)].
Defined.

(* ===================================================================== *)
(** ** Further properties: a destroyed entity left in the pool *)
(* ===================================================================== *)

Lemma Create_scan_throws td (l1 : list Entity) e l2 w :
  (forall e', e' ∈ l1 -> active_of (type td) w e' = Some true) ->
  active_of (type td) w e = None ->
  Create_scan td (l1 ++ e :: l2) w = Thrown w.
Proof.
  induction l1 as [|e0 l1 IH]; intros Hall He.
  - cbn. unfold get_isActive, bind, get, ret.
    unfold active_of in He. destruct (type td); cbn in *.
    + by destruct (TargetStaticComponent w !! e).
    + by destruct (TargetMovingComponent w !! e).
  - cbn. unfold bind at 1. rewrite (get_isActive_Ok _ _ _ true).
    + cbn. apply IH; [|done]. intros e' He'. apply Hall. by right.
    + apply Hall. by left.
Qed.

(** X11 ([Create] after a bare [Destroy]).  [Destroy] leaves the handle
    in its bucket.  If every entry before it in the bucket is active, the
    next [Create] of that kind reaches the destroyed entry, throws on
    reading its state record, and changes nothing: no target of that
    kind can be created any more. *)
Theorem Create_throws_after_Destroy
    (ty : TARGET_TYPE) (p : Vector3) (w : World)
    (l1 : list Entity) (e : Entity) (l2 : list Entity) :
  pooledObjects ty w = l1 ++ e :: l2 ->
  (forall e', e' ∈ l1 -> active_of ty w e' = Some true) ->
  e ∉ l1 ->
  exists w1,
    Destroy e w = Ok tt w1 /\
    Create (mkTargetData ty p) w1 = Thrown w1.
Proof.
  intros Hl Hall Hnotin. eexists. split; [reflexivity|].
  unfold Create, bind. cbn [type].
  replace (pooledObjects ty (removeEntity e w)) with (l1 ++ e :: l2)
    by (by destruct ty).
  rewrite (Create_scan_throws (mkTargetData ty p)); [done | |].
  - intros e' He'. rewrite <- (Hall e' He').
    destruct ty; cbn; rewrite lookup_delete_ne; try done; by intros ->.
  - destruct ty; cbn; by rewrite lookup_delete_eq.
Qed.

Lemma Create_throws_after_Destroy_witness :
  (pooledObjects STATIC world_two_kinds = [] ++ 512%N :: [] /\
   (forall e', e' ∈ @nil Entity -> active_of STATIC world_two_kinds e' = Some true) /\
   512%N ∉ @nil Entity) /\
  exists w1,
    Destroy 512%N world_two_kinds = Ok tt w1 /\
    Create (mkTargetData STATIC wpA) w1 = Thrown w1.
Proof.
  assert (H2 : forall e', e' ∈ @nil Entity ->
                 active_of STATIC world_two_kinds e' = Some true)
    by (intros e' He'; inversion He').
  assert (H3 : 512%N ∉ @nil Entity) by (intros He; inversion He).
  split; [split; [reflexivity | split; [exact H2 | exact H3]]|].
  exact (Create_throws_after_Destroy STATIC wpA world_two_kinds [] 512%N []
           eq_refl H2 H3).
Defined.

Lemma Disable_returned e v w :
  returned (Disable e v w) = true -> is_Some (Transform w !! e).
Proof.
  unfold Disable, bind, mutate, ret; cbn.
  destruct (v =? 0).
  - destruct (TargetStaticComponent w !! e); [|done]. cbn.
    destruct (Transform w !! e); [eauto | done].
  - destruct (v =? 1).
    + destruct (TargetMovingComponent w !! e); [|done]. cbn.
      rewrite lookup_insert_eq. cbn.
      destruct (Transform w !! e); [eauto | done].
    + destruct (Transform w !! e); [eauto | done].
Qed.

Lemma for_each_Disable_returned v (l : list Entity) :
  forall w, returned (for_each (fun e => Disable e v) l w) = true ->
  forall e, e ∈ l -> is_Some (Transform w !! e).
Proof.
  induction l as [|e0 l IH]; intros w Hret e He; [inversion He|].
  cbn in Hret. unfold bind in Hret.
  pose proof (keeps_shape_Disable e0 v w) as Hsh.
  destruct (Disable e0 v w) as [[] w1|w1] eqn:Hrun; [|done]. cbn in Hsh.
  apply elem_of_cons in He as [->|He].
  - apply (Disable_returned _ v). by rewrite Hrun.
  - specialize (IH w1 Hret e He).
    apply elem_of_dom. apply elem_of_dom in IH.
    unfold shape in Hsh. injection Hsh as _ Hd _ _ _ _ _. by rewrite <- Hd.
Qed.

(** X12 ([DisableAll] after a bare [Destroy]).  If an entity of either
    bucket has no transform, as after [Destroy] of a pooled entity,
    [DisableAll] throws. *)
Theorem DisableAll_throws_on_destroyed_entry
    (ty : TARGET_TYPE) (e : Entity) (w : World) :
  e ∈ pooledObjects ty w -> Transform w !! e = None ->
  returned (DisableAll w) = false.
Proof.
  intros Hin Hnone. apply not_true_is_false. intros Hret.
  unfold DisableAll, bind in Hret.
  assert (Hsh : shape (state_of (for_each (fun e => Disable e 0)
                                   (pooledObjects STATIC w) w)) = shape w).
  { apply keeps_for_each. intros e0. apply keeps_shape_Disable. }
  destruct (for_each (fun e => Disable e 0) (pooledObjects STATIC w) w)
    as [[] w1|w1] eqn:Hrun; [|done]. cbn in Hsh.
  destruct ty.
  - destruct (for_each_Disable_returned 0 _ w ltac:(by rewrite Hrun) e Hin)
      as [t Ht]. congruence.
  - rewrite (pooledObjects_shape MOVING w w1 Hsh) in Hret.
    destruct (for_each_Disable_returned 1 _ w1 Hret e Hin) as [t Ht].
    assert (e ∈ dom (Transform w)) as [t' Ht']%elem_of_dom; [|congruence].
    unfold shape in Hsh. injection Hsh as _ Hd _ _ _ _ _.
    rewrite <- Hd. apply elem_of_dom. eauto.
Qed.

Lemma DisableAll_throws_on_destroyed_entry_witness :
  (512%N ∈ pooledObjects STATIC world_dangling /\
   Transform world_dangling !! 512%N = None) /\
  returned (DisableAll world_dangling) = false.
Proof.
  assert (Hin : 512%N ∈ pooledObjects STATIC world_dangling)
    by (apply list_elem_of_In; left; reflexivity).
  split; [split; [exact Hin | reflexivity]|].
  exact (DisableAll_throws_on_destroyed_entry STATIC 512%N world_dangling
           Hin eq_refl).
Defined.

(** X13 ([DestroyAll] repairs the pool).  Whatever handles were left
    dangling by bare calls of [Destroy], after [DestroyAll] the pool
    invariant holds again, and a [Create] of either kind returns with a
    new target as the only entry of its bucket. *)
Theorem DestroyAll_repairs_pool (w : World) (ty : TARGET_TYPE) (p : Vector3) :
  engine_fresh w ->
  pool_wf (state_of (DestroyAll w)) /\
  exists e w',
    Create (mkTargetData ty p) (state_of (DestroyAll w)) = Ok e w' /\
    pooledObjects ty w' = [e] /\ active_of ty w' e = Some true /\
    position <$> Transform w' !! e = Some p.
Proof.
  intros Hf. pose proof (DestroyAll_fresh w Hf) as Hwf. split; [done|].
  destruct (DestroyAll_pools w) as [Hs Hm].
  assert (Hl : pooledObjects ty (state_of (DestroyAll w)) = [])
    by (by destruct ty).
  destruct (Create_fresh ty p (state_of (DestroyAll w)) Hwf)
    as (w' & Hrun & _ & _ & Hl' & _ & Ht & _ & Hrec & _).
  { unfold has_inactive. by rewrite Hl. }
  exists (nextEntity (state_of (DestroyAll w))), w'.
  split; [done|]. split; [by rewrite Hl', Hl|]. split; [|by rewrite Ht].
  destruct ty; unfold active_of; by rewrite Hrec.
Qed.

Lemma DestroyAll_repairs_pool_witness :
  engine_fresh world_dangling /\
  pool_wf (state_of (DestroyAll world_dangling)) /\
  exists e w',
    Create (mkTargetData STATIC wpA) (state_of (DestroyAll world_dangling))
    = Ok e w' /\
    pooledObjects STATIC w' = [e] /\ active_of STATIC w' e = Some true /\
    position <$> Transform w' !! e = Some wpA.
Proof.
  assert (Hf : engine_fresh world_dangling)
    by (apply engine_fresh_removeEntity, pool_wf_fresh, pool_wf_world_two_kinds).
  split; [exact Hf|].
  exact (DestroyAll_repairs_pool world_dangling STATIC wpA Hf).
Defined.

(* ===================================================================== *)
(** ** Further properties: what [Create] touches *)
(* ===================================================================== *)

Lemma keeps_others_mutate_Transform e f : keeps (others e) (mutate cTransform e f).
Proof.
  intros w. rewrite mutate_state. cbn. destruct (Transform w !! e); [|done].
  unfold others; cbn. by rewrite delete_insert_eq.
Qed.

Lemma keeps_others_mutate_Static e f : keeps (others e) (mutate cTargetStatic e f).
Proof.
  intros w. rewrite mutate_state. cbn.
  destruct (TargetStaticComponent w !! e); [|done].
  unfold others; cbn. by rewrite delete_insert_eq.
Qed.

Lemma keeps_others_mutate_Moving e f : keeps (others e) (mutate cTargetMoving e f).
Proof.
  intros w. rewrite mutate_state. cbn.
  destruct (TargetMovingComponent w !! e); [|done].
  unfold others; cbn. by rewrite delete_insert_eq.
Qed.

Lemma keeps_others_Enable e td : keeps (others e) (Enable e td).
Proof.
  unfold Enable. repeat (apply keeps_bind; [|intros _]).
  - destruct (type td);
      [apply keeps_others_mutate_Static | apply keeps_others_mutate_Moving].
  - apply keeps_others_mutate_Transform.
  - apply keeps_others_mutate_Transform.
  - apply keeps_ret.
Qed.

Lemma Enable_returns e td w r w' : Enable e td w = Ok r w' -> r = e.
Proof.
  unfold Enable, bind, ret.
  destruct (match type td with
            | STATIC => mutate cTargetStatic e (fun _ => Static.mk true)
            | MOVING => mutate cTargetMoving e (set_isActive true)
            end w) as [[] w1|]; [|done].
  destruct (mutate cTransform e _ w1) as [[] w2|]; [|done].
  destruct (mutate cTransform e _ w2) as [[] w3|]; [|done].
  by intros [= <- _].
Qed.

Lemma get_isActive_state ty e w b w1 : get_isActive ty e w = Ok b w1 -> w1 = w.
Proof.
  unfold get_isActive, bind, get, ret. destruct ty; cbn.
  - destruct (TargetStaticComponent w !! e); [by intros [= _ <-] | done].
  - destruct (TargetMovingComponent w !! e); [by intros [= _ <-] | done].
Qed.

Lemma Create_scan_others td (l : list Entity) :
  forall w r w', Create_scan td l w = Ok r w' ->
  shape w' = shape w /\
  match r with
  | Some e => others e w' = others e w
  | None => w' = w
  end.
Proof.
  induction l as [|e0 l IH]; intros w r w' Hrun.
  - cbn in Hrun. injection Hrun as <- <-. done.
  - cbn in Hrun. unfold bind at 1 in Hrun.
    destruct (get_isActive (type td) e0 w) as [b w1|] eqn:Hget; [|done].
    apply get_isActive_state in Hget as ->.
    destruct (negb b); [|by apply IH].
    unfold bind, ret in Hrun.
    pose proof (keeps_others_Enable e0 td w) as Ho.
    pose proof (keeps_shape_Enable e0 td w) as Hs.
    destruct (Enable e0 td w) as [r0 w2|] eqn:Hen; [|done].
    apply Enable_returns in Hen as ->.
    injection Hrun as <- <-. done.
Qed.

Lemma Create_others td w w' e :
  Create td w = Ok e w' ->
  others e w' = others e w /\
  forall ty, pooledObjects ty w' = pooledObjects ty w \/
             pooledObjects ty w' = pooledObjects ty w ++ [e].
Proof.
  intros Hrun. unfold Create in Hrun. unfold bind at 1 in Hrun.
  destruct (Create_scan td (pooledObjects (type td) w) w)
    as [[e0|] w1|] eqn:Hscan; [| |done].
  - apply Create_scan_others in Hscan as [Hs Ho].
    injection Hrun as <- <-. split; [done|].
    intros ty. left. by apply pooledObjects_shape.
  - apply Create_scan_others in Hscan as [_ ->].
    unfold bind, addEntity, create, push, ret in Hrun; cbn in Hrun.
    destruct (Transform w !! nextEntity w); [done|]. cbn in Hrun.
    destruct (GltfContainer w !! nextEntity w); [done|]. cbn in Hrun.
    destruct (type td); cbn in Hrun.
    + destruct (TargetStaticComponent w !! nextEntity w); [done|].
      cbn in Hrun. injection Hrun as <- <-. unfold others; cbn.
      rewrite !delete_insert_eq. split; [done|].
      intros []; cbn; auto.
    + destruct (TargetMovingComponent w !! nextEntity w); [done|].
      cbn in Hrun. injection Hrun as <- <-. unfold others; cbn.
      rewrite !delete_insert_eq. split; [done|].
      intros []; cbn; auto.
Qed.

Lemma others_lookup e w w' e' :
  others e w' = others e w -> e' <> e ->
  Transform w' !! e' = Transform w !! e' /\
  GltfContainer w' !! e' = GltfContainer w !! e' /\
  TargetStaticComponent w' !! e' = TargetStaticComponent w !! e' /\
  TargetMovingComponent w' !! e' = TargetMovingComponent w !! e'.
Proof.
  intros Ho Hne. unfold others in Ho. injection Ho as HT HG HS HM.
  repeat split.
  - by rewrite <- (lookup_delete_ne (Transform w') e e'), HT, lookup_delete_ne.
  - by rewrite <- (lookup_delete_ne (GltfContainer w') e e'), HG, lookup_delete_ne.
  - by rewrite <- (lookup_delete_ne (TargetStaticComponent w') e e'), HS,
         lookup_delete_ne.
  - by rewrite <- (lookup_delete_ne (TargetMovingComponent w') e e'), HM,
         lookup_delete_ne.
Qed.

(** X14 (what [Create] touches).  A call of [Create] that returns the
    handle [e] leaves every component of every other entity as it is, and
    each bucket either as it is or with [e] appended at its end: [Create]
    never removes or reorders pool entries and never alters another
    target. *)
Theorem Create_touches_only_its_entity
    (targetData : TargetDataObject) (w w' : World) (e : Entity) :
  Create targetData w = Ok e w' ->
  (forall e', e' <> e ->
     Transform w' !! e' = Transform w !! e' /\
     GltfContainer w' !! e' = GltfContainer w !! e' /\
     TargetStaticComponent w' !! e' = TargetStaticComponent w !! e' /\
     TargetMovingComponent w' !! e' = TargetMovingComponent w !! e') /\
  (forall ty, pooledObjects ty w' = pooledObjects ty w \/
              pooledObjects ty w' = pooledObjects ty w ++ [e]).
Proof.
  intros Hrun. destruct (Create_others _ _ _ _ Hrun) as [Ho Hp].
  split; [|done]. intros e' Hne. by apply (others_lookup e).
Qed.

Lemma Create_touches_only_its_entity_witness :
  exists w',
    Create (mkTargetData STATIC wpA) world_two_idle = Ok 512%N w' /\
    (forall e', e' <> 512%N ->
       Transform w' !! e' = Transform world_two_idle !! e' /\
       GltfContainer w' !! e' = GltfContainer world_two_idle !! e' /\
       TargetStaticComponent w' !! e' = TargetStaticComponent world_two_idle !! e' /\
       TargetMovingComponent w' !! e' = TargetMovingComponent world_two_idle !! e') /\
    (forall ty, pooledObjects ty w' = pooledObjects ty world_two_idle \/
                pooledObjects ty w' = pooledObjects ty world_two_idle ++ [512%N]).
Proof.
  eexists. split; [reflexivity|].
  exact (Create_touches_only_its_entity (mkTargetData STATIC wpA)
           world_two_idle _ 512%N eq_refl).
Defined.

(** X15 (which entry is reused).  On a well-formed pool whose bucket of
    the requested kind has an inactive entry, [Create] returns the first
    inactive entry in insertion order, allocates nothing (the buckets and
    the engine's entity counter are unchanged), and leaves the activity
    of every other entry, the later inactive ones included, as it is. *)
Theorem Create_reuses_first_inactive
    (ty : TARGET_TYPE) (p : Vector3) (w : World)
    (l1 : list Entity) (e : Entity) (l2 : list Entity) :
  pool_wf w ->
  pooledObjects ty w = l1 ++ e :: l2 ->
  (forall e', e' ∈ l1 -> active_of ty w e' = Some true) ->
  active_of ty w e = Some false ->
  exists w',
    Create (mkTargetData ty p) w = Ok e w' /\
    nextEntity w' = nextEntity w /\
    (forall ty', pooledObjects ty' w' = pooledObjects ty' w) /\
    active_of ty w' e = Some true /\
    (forall ty' e', (ty', e') <> (ty, e) ->
       active_of ty' w' e' = active_of ty' w e').
Proof.
  intros Hwf Hl Hl1 He.
  destruct (Create_reuse ty p w l1 e l2 Hwf Hl Hl1 He)
    as (w' & Hrun & Hsh & Hact & _ & Hfr).
  exists w'. split; [done|].
  split; [unfold shape in Hsh; by injection Hsh|].
  split; [intros ty'; by apply pooledObjects_shape|]. done.
Qed.

Lemma Create_reuses_first_inactive_witness :
  (pool_wf world_two_idle /\
   pooledObjects STATIC world_two_idle = [] ++ 512%N :: [513%N] /\
   (forall e', e' ∈ @nil Entity -> active_of STATIC world_two_idle e' = Some true) /\
   active_of STATIC world_two_idle 512%N = Some false) /\
  exists w',
    Create (mkTargetData STATIC wpA) world_two_idle = Ok 512%N w' /\
    nextEntity w' = nextEntity world_two_idle /\
    (forall ty', pooledObjects ty' w' = pooledObjects ty' world_two_idle) /\
    active_of STATIC w' 512%N = Some true /\
    (forall ty' e', (ty', e') <> (STATIC, 512%N) ->
       active_of ty' w' e' = active_of ty' world_two_idle e').
Proof.
  assert (H2 : forall e', e' ∈ @nil Entity ->
                 active_of STATIC world_two_idle e' = Some true)
    by (intros e' He'; inversion He').
  split; [split; [exact pool_wf_world_two_idle |
                  split; [reflexivity | split; [exact H2 | reflexivity]]]|].
  exact (Create_reuses_first_inactive STATIC wpA world_two_idle [] 512%N [513%N]
           pool_wf_world_two_idle eq_refl H2 eq_refl).
Defined.

(* ===================================================================== *)
(** ** Further properties: the demo scene *)
(* ===================================================================== *)

Lemma keeps_moving_side_create {V} (C : Component V) e v :
  (forall m w, moving_side (set_store C m w) = moving_side w) ->
  keeps moving_side (create C e v).
Proof.
  intros HC w. unfold create. destruct (store C w !! e); [done|]. apply HC.
Qed.

Lemma keeps_moving_side_mutate {V} (C : Component V) e f :
  (forall m w, moving_side (set_store C m w) = moving_side w) ->
  keeps moving_side (mutate C e f).
Proof.
  intros HC w. rewrite mutate_state. destruct (store C w !! e); [|done]. apply HC.
Qed.

Lemma keeps_moving_side_Create_static p :
  keeps moving_side (Create (mkTargetData STATIC p)).
Proof.
  unfold Create. apply keeps_bind.
  - apply (keeps_reading moving_side (fun w0 => Create_scan _ _)). intros w0.
    generalize (pooledObjects (type (mkTargetData STATIC p)) w0) as l.
    induction l as [|e l IH]; [apply keeps_ret|].
    cbn. apply keeps_bind.
    + apply keeps_bind; [apply keeps_get | intros c; apply keeps_ret].
    + intros b. destruct (negb b); [|apply IH].
      apply keeps_bind; [|intros r; apply keeps_ret].
      unfold Enable. cbn. repeat (apply keeps_bind; [|intros _]);
        try apply keeps_ret; by apply keeps_moving_side_mutate.
  - intros [r|]; [apply keeps_ret|].
    apply keeps_bind; [by intros w | intros e].
    repeat (apply keeps_bind; [|intros _]); try apply keeps_ret;
      try (by apply keeps_moving_side_create).
    by intros w.
Qed.

Lemma existsb_pointwise {A} (f g : A -> bool) (l : list A) :
  (forall a, a ∈ l -> f a = g a) -> existsb f l = existsb g l.
Proof.
  induction l as [|a l IH]; intros H; [done|]. cbn.
  rewrite (H a) by (by left). rewrite IH; [done|].
  intros a' Ha'. apply H. by right.
Qed.

Lemma has_inactive_moving_side w w' :
  moving_side w' = moving_side w ->
  has_inactive MOVING w' = has_inactive MOVING w.
Proof.
  unfold moving_side, has_inactive, is_inactive, active_of; cbn.
  by intros [= -> ->].
Qed.

Lemma has_inactive_active_of ty w w' :
  pooledObjects ty w' = pooledObjects ty w ->
  (forall e, active_of ty w' e = active_of ty w e) ->
  has_inactive ty w' = has_inactive ty w.
Proof.
  intros Hl Ha. unfold has_inactive. rewrite Hl.
  apply existsb_pointwise. intros e _. unfold is_inactive. by rewrite Ha.
Qed.

Lemma configure_active_of e s l b w ty e' :
  active_of ty (state_of (configure e s l b w)) e' = active_of ty w e'.
Proof.
  unfold configure. rewrite state_of_bind.
  assert (H : forall f w0,
            (forall c, Moving.isActive (f c) = Moving.isActive c) ->
            active_of ty (state_of (mutate cTargetMoving e f w0)) e'
            = active_of ty w0 e').
  { intros f w0 Hf. rewrite mutate_state. cbn.
    destruct (TargetMovingComponent w0 !! e) as [c|] eqn:Hc; [|done].
    destruct ty; cbn; [done|].
    destruct (decide (e = e')) as [<-|Hne].
    - by rewrite lookup_insert_eq, Hc; cbn; rewrite Hf.
    - by rewrite lookup_insert_ne. }
  pose proof (H (set_speed s) w (fun _ => eq_refl)) as H1.
  destruct (mutate cTargetMoving e (set_speed s) w) as [[] w1|w1]; [|exact H1].
  cbn in H1. rewrite <- H1, state_of_bind.
  pose proof (H (set_waypoints l) w1 (fun _ => eq_refl)) as H2.
  destruct (mutate cTargetMoving e (set_waypoints l) w1) as [[] w2|w2];
    [|exact H2].
  cbn in H2. rewrite <- H2.
  apply (H (set_isProcessing b) w2). done.
Qed.

(** A moving target allocated by [Create] and customised by the caller,
    in the state right after the customisation. *)
Lemma Create_configure_moving p s l b w :
  pool_wf w -> has_inactive MOVING w = false ->
  exists w1 w2,
    Create (mkTargetData MOVING p) w = Ok (nextEntity w) w1 /\
    configure (nextEntity w) s l b w1 = Ok tt w2 /\
    pool_wf w2 /\ has_inactive MOVING w2 = false /\
    pooledMoving w2 = pooledMoving w ++ [nextEntity w] /\
    (nextEntity w < nextEntity w2)%N /\
    view w2 (nextEntity w)
    = (Some (Moving.mk true b s 0 l (mkVector3 0 0 0)),
       Some (mkTransform p (mkVector3 1 1 1))) /\
    forall e', e' <> nextEntity w -> view w2 e' = view w e'.
Proof.
  intros Hwf Hno.
  destruct (Create_fresh MOVING p w Hwf Hno)
    as (w1 & Hrun & Hwf1 & Hnotin & Hl & _ & Ht & _ & Hrec & _ & Hfr).
  destruct (configure_spec (nextEntity w) s l b w1 _ Hrec)
    as (w2 & Hconf & Hc2 & Ht2).
  pose proof (keeps_shape_configure (nextEntity w) s l b w1) as Hsh.
  rewrite Hconf in Hsh. cbn in Hsh.
  assert (Hwf2 : pool_wf w2) by (by apply (pool_wf_shape w1)).
  exists w1, w2. split; [done|]. split; [done|]. split; [done|].
  assert (Hl2 : pooledMoving w2 = pooledMoving w ++ [nextEntity w]).
  { change (pooledObjects MOVING w2 = pooledObjects MOVING w ++ [nextEntity w]).
    by rewrite (pooledObjects_shape MOVING w1 w2 Hsh). }
  split; [|split; [done|]; split; [|split]].
  - rewrite (has_inactive_active_of MOVING w1 w2).
    + unfold has_inactive. rewrite Hl, existsb_app. cbn.
      unfold is_inactive at 2. cbn. rewrite Hrec. cbn.
      rewrite orb_false_r. rewrite <- Hno. unfold has_inactive.
      apply existsb_pointwise. intros e He.
      unfold is_inactive. rewrite Hfr; [done|]. by intros ->.
    + by apply pooledObjects_shape.
    + intros e. pose proof (configure_active_of (nextEntity w) s l b w1 MOVING e) as H.
      by rewrite Hconf in H.
  - apply (pool_wf_fresh w2 Hwf2).
    assert (nextEntity w ∈ dom (Transform w2)); [|set_solver].
    apply elem_of_dom. rewrite Ht2, Ht. eauto.
  - unfold view. by rewrite Hc2, Ht2, Ht.
  - intros e' Hne.
    pose proof (Create_others _ _ _ _ Hrun) as [Ho _].
    destruct (others_lookup _ _ _ e' Ho Hne) as (HT & _ & _ & HM).
    assert (Ho2 : others (nextEntity w) w2 = others (nextEntity w) w1).
    { assert (K : keeps (others (nextEntity w)) (configure (nextEntity w) s l b)).
      { unfold configure. repeat (apply keeps_bind; [|intros _]);
          apply keeps_others_mutate_Moving. }
      specialize (K w1). by rewrite Hconf in K. }
    destruct (others_lookup _ _ _ e' Ho2 Hne) as (HT2 & _ & _ & HM2).
    unfold view. congruence.
Qed.

Lemma Create_static_step p w :
  pool_wf w -> has_inactive MOVING w = false ->
  exists e w',
    Create (mkTargetData STATIC p) w = Ok e w' /\
    pool_wf w' /\ has_inactive MOVING w' = false /\
    pooledMoving w' = pooledMoving w.
Proof.
  intros Hwf Hno.
  destruct (Create_post STATIC p w Hwf) as (e & w' & _ & _ & Hrun & Hwf' & _).
  pose proof (keeps_moving_side_Create_static p w) as Hside.
  rewrite Hrun in Hside. cbn in Hside.
  exists e, w'. split; [done|]. split; [done|].
  split; [by rewrite (has_inactive_moving_side w w' Hside)|].
  unfold moving_side in Hside. by injection Hside.
Qed.

(** X16 (the demo's moving targets stand still).  Whatever
    [PlayerShootingArea.Move] does, if it returns into a well-formed pool
    with no inactive moving target, [main] returns with its two moving
    targets allocated, pooled last and set processing; each starts 4
    units away from its first waypoint with the zero vector as cached
    direction, so through any run of ticks whose [dt * 1.2] and
    [dt * 2.4] are finite numbers neither of them leaves the position it
    was created at, nor changes its index or direction. *)
Theorem main_moving_targets_stand_still
    (PlayerShootingArea_Move : Vector3 -> M unit) (w w1 : World)
    (dts : list float) :
  PlayerShootingArea_Move (mkVector3 16 0 4) w = Ok tt w1 ->
  pool_wf w1 -> has_inactive MOVING w1 = false ->
  Forall (fun dt => is_finite (dt * 1.2) = true) dts ->
  Forall (fun dt => is_finite (dt * 2.4) = true) dts ->
  exists w' targetMoving1 targetMoving2,
    main PlayerShootingArea_Move w = Ok tt w' /\
    targetMoving1 <> targetMoving2 /\
    pooledMoving w' = pooledMoving w1 ++ [targetMoving1; targetMoving2] /\
    TargetMovingComponent (run_ticks dts w') !! targetMoving1
    = Some (Moving.mk true true 1.2 0 [mkVector3 11 1 16; mkVector3 21 1 16]
              (mkVector3 0 0 0)) /\
    (exists t, Transform (run_ticks dts w') !! targetMoving1 = Some t /\
               same_place (position t) (mkVector3 11 1 20)) /\
    TargetMovingComponent (run_ticks dts w') !! targetMoving2
    = Some (Moving.mk true true 2.4 0 [mkVector3 21 1 20; mkVector3 11 1 20]
              (mkVector3 0 0 0)) /\
    (exists t, Transform (run_ticks dts w') !! targetMoving2 = Some t /\
               same_place (position t) (mkVector3 21 1 24)).
Proof.
  intros HMove Hwf1 Hno1 Hfin1 Hfin2.
  destruct (Create_static_step (mkVector3 13.5 1 18) w1 Hwf1 Hno1)
    as (s1 & w2 & Hrun2 & Hwf2 & Hno2 & Hpm2).
  destruct (Create_static_step (mkVector3 18.5 1 22) w2 Hwf2 Hno2)
    as (s2 & w3 & Hrun3 & Hwf3 & Hno3 & Hpm3).
  destruct (Create_static_step (mkVector3 16 1 26) w3 Hwf3 Hno3)
    as (s3 & w4 & Hrun4 & Hwf4 & Hno4 & Hpm4).
  destruct (Create_configure_moving (mkVector3 11 1 20) 1.2
              [mkVector3 11 1 16; mkVector3 21 1 16] true w4 Hwf4 Hno4)
    as (w5 & w6 & Hrun5 & Hrun6 & Hwf6 & Hno6 & Hpm6 & Hlt6 & Hv6 & _).
  destruct (Create_configure_moving (mkVector3 21 1 24) 2.4
              [mkVector3 21 1 20; mkVector3 11 1 20] true w6 Hwf6 Hno6)
    as (w7 & w8 & Hrun7 & Hrun8 & _ & _ & Hpm8 & _ & Hv8 & Hfr8).
  assert (Hne : nextEntity w4 <> nextEntity w6) by lia.
  exists w8, (nextEntity w4), (nextEntity w6).
  split.
  { unfold main, bind. by rewrite HMove, Hrun2, Hrun3, Hrun4, Hrun5, Hrun6, Hrun7. }
  split; [done|]. split.
  { rewrite Hpm8, Hpm6, Hpm4, Hpm3, Hpm2, <- app_assoc. done. }
  destruct (zero_direction_run (nextEntity w4)
              (Moving.mk true true 1.2 0 [mkVector3 11 1 16; mkVector3 21 1 16]
                 (mkVector3 0 0 0))
              (mkVector3 11 1 16) (mkVector3 11 1 20) dts
              eq_refl eq_refl eq_refl Hfin1 w8
              (mkTransform (mkVector3 11 1 20) (mkVector3 1 1 1)))
    as (t1 & Hv1 & Hp1 & _).
  { by rewrite Hfr8. }
  { apply same_place_refl. }
  destruct (zero_direction_run (nextEntity w6)
              (Moving.mk true true 2.4 0 [mkVector3 21 1 20; mkVector3 11 1 20]
                 (mkVector3 0 0 0))
              (mkVector3 21 1 20) (mkVector3 21 1 24) dts
              eq_refl eq_refl eq_refl Hfin2 w8
              (mkTransform (mkVector3 21 1 24) (mkVector3 1 1 1)))
    as (t2 & Hv2 & Hp2 & _).
  { done. }
  { apply same_place_refl. }
  unfold view in Hv1, Hv2. injection Hv1 as Hm1 Ht1. injection Hv2 as Hm2 Ht2.
  split; [done|]. split; [eauto|]. split; [done|]. eauto.
Qed.

Lemma main_moving_targets_stand_still_witness :
  let dts := [0.016; 0.033; 1]%float in
  (ret tt world0 = Ok tt world0 /\
   pool_wf world0 /\ has_inactive MOVING world0 = false /\
   Forall (fun dt => is_finite (dt * 1.2) = true) dts /\
   Forall (fun dt => is_finite (dt * 2.4) = true) dts) /\
  exists w' targetMoving1 targetMoving2,
    main (fun _ => ret tt) world0 = Ok tt w' /\
    targetMoving1 <> targetMoving2 /\
    pooledMoving w' = pooledMoving world0 ++ [targetMoving1; targetMoving2] /\
    TargetMovingComponent (run_ticks dts w') !! targetMoving1
    = Some (Moving.mk true true 1.2 0 [mkVector3 11 1 16; mkVector3 21 1 16]
              (mkVector3 0 0 0)) /\
    (exists t, Transform (run_ticks dts w') !! targetMoving1 = Some t /\
               same_place (position t) (mkVector3 11 1 20)) /\
    TargetMovingComponent (run_ticks dts w') !! targetMoving2
    = Some (Moving.mk true true 2.4 0 [mkVector3 21 1 20; mkVector3 11 1 20]
              (mkVector3 0 0 0)) /\
    (exists t, Transform (run_ticks dts w') !! targetMoving2 = Some t /\
               same_place (position t) (mkVector3 21 1 24)).
Proof.
  intros dts.
  assert (Hfin1 : Forall (fun dt => is_finite (dt * 1.2) = true) dts)
    by (repeat constructor).
  assert (Hfin2 : Forall (fun dt => is_finite (dt * 2.4) = true) dts)
    by (repeat constructor).
  split; [split; [reflexivity | split; [exact pool_wf_world0 |
            split; [reflexivity | split; [exact Hfin1 | exact Hfin2]]]]|].
  exact (main_moving_targets_stand_still (fun _ => ret tt) world0 world0 dts
           eq_refl pool_wf_world0 eq_refl Hfin1 Hfin2).
Defined.

(* ===================================================================== *)
(** ** Further properties: what [DestroyAll] spares *)
(* ===================================================================== *)

Lemma last_elem_of (l : list Entity) o : last l = Some o -> o ∈ l.
Proof.
  destruct (decide (l = [])) as [->|Hne]; [done|].
  destruct (exists_last Hne) as (l' & a & ->).
  rewrite last_snoc. intros [= ->]. set_solver.
Qed.

Lemma removelast_elem_of (l : list Entity) e : e ∈ removelast l -> e ∈ l.
Proof.
  destruct (decide (l = [])) as [->|Hne]; [done|].
  destruct (exists_last Hne) as (l' & a & ->).
  rewrite removelast_last. set_solver.
Qed.

Lemma DestroyAll_round_spares ty w e :
  e ∉ pooledObjects ty w ->
  components (state_of (DestroyAll_round ty w)) e = components w e.
Proof.
  intros Hnotin. unfold DestroyAll_round, bind, pop, Destroy.
  destruct (last (pooledObjects ty w)) as [o|] eqn:Hlast; cbn.
  - assert (o <> e) by (intros ->; by apply last_elem_of in Hlast).
    unfold components; destruct ty; cbn; by rewrite !lookup_delete_ne.
  - by destruct ty.
Qed.

Lemma DestroyAll_loop_spares ty w e :
  e ∉ pooledObjects ty w -> components (DestroyAll_loop ty w) e = components w e.
Proof.
  funelim (DestroyAll_loop ty w); intros Hnotin; [|done].
  match goal with
  | IH : context [components (DestroyAll_loop _ _)] |- _ => rewrite IH
  end.
  - by apply DestroyAll_round_spares.
  - rewrite DestroyAll_round_pool. intros Hin. by apply removelast_elem_of in Hin.
Qed.

(** X17 (what [DestroyAll] spares).  [DestroyAll] removes from the engine
    the entities of the two buckets and no other: every component of an
    entity that is in neither bucket is as before, and the engine's
    entity counter is unchanged. *)
Theorem DestroyAll_spares_unpooled (w : World) (e : Entity) :
  (forall ty, e ∉ pooledObjects ty w) ->
  exists w',
    DestroyAll w = Ok tt w' /\
    Transform w' !! e = Transform w !! e /\
    GltfContainer w' !! e = GltfContainer w !! e /\
    TargetStaticComponent w' !! e = TargetStaticComponent w !! e /\
    TargetMovingComponent w' !! e = TargetMovingComponent w !! e /\
    nextEntity w' = nextEntity w.
Proof.
  intros Hnotin. eexists. split; [reflexivity|].
  assert (H : components (DestroyAll_loop MOVING (DestroyAll_loop STATIC w)) e
              = components w e).
  { rewrite DestroyAll_loop_spares.
    - apply DestroyAll_loop_spares, Hnotin.
    - rewrite DestroyAll_loop_other by done. apply Hnotin. }
  unfold components in H. by injection H.
Qed.

(** A static and a moving target of the pool, and a transform that the
    scene attached to an entity of its own. *)
Lemma DestroyAll_spares_unpooled_witness :
  let w := set_Transform
             (<[7%N := mkTransform wpA (mkVector3 1 1 1)]> (Transform world_two_kinds))
             world_two_kinds in
  (forall ty, 7%N ∉ pooledObjects ty w) /\
  exists w',
    DestroyAll w = Ok tt w' /\
    Transform w' !! 7%N = Transform w !! 7%N /\
    GltfContainer w' !! 7%N = GltfContainer w !! 7%N /\
    TargetStaticComponent w' !! 7%N = TargetStaticComponent w !! 7%N /\
    TargetMovingComponent w' !! 7%N = TargetMovingComponent w !! 7%N /\
    nextEntity w' = nextEntity w.
Proof.
  intros w.
  assert (H : forall ty, 7%N ∉ pooledObjects ty w).
  { intros ty Hin. apply list_elem_of_In in Hin.
    destruct ty; cbn in Hin; destruct Hin as [Hin|[]]; discriminate Hin. }
  split; [exact H|].
  exact (DestroyAll_spares_unpooled w 7%N H).
Defined.
